(** * Finger Flow: the timing and judgment core

    A shallow embedding of [src/js/conductor.js] (class [Conductor]), of
    [src/js/input.js] (class [InputManager], constants [JUDGMENT_WINDOWS]
    and [JUDGMENT_SCORES], classes [Note] and [NoteManager]) and of the game
    logic of [src/js/main.js] (class [Game]: pause, resume, reset, the frame
    loop and the key press).

    Modelling conventions.
    - A JavaScript number that holds a time (seconds or milliseconds) is a
      rational [Q].  The arithmetic of the clock ([Conductor.update]) and of
      the judgment (the differences [hitTime - currentTime] and their
      comparisons with the windows) is exact: IEEE-754 rounding is not
      modelled there.  The look-ahead sum of [spawnNotes], the quotients of
      [getBeatDuration], [getCurrentBeat] and [calculateAccuracy] and the
      frame rate are rounded to binary64 as the source rounds them
      ([round64] below).  Counters (score, combo, judgment counts), which
      only ever grow from 0 by integer steps, are natural numbers [N];
      integer arithmetic on them is exact in binary64 below [2^53].
    - Objects are mutable and shared: a [Note] is reachable from both
      [NoteManager.notes] and [NoteManager.activeNotes].  The notes live in a
      store ([heap], a list indexed by reference) and the two arrays hold
      references.
    - Methods take the receiver as their last argument and return the
      updated receiver (explicit state passing).  Readings of the
      environment ([performance.now()], [Date.now()]) are extra arguments.
    - DOM manipulation, [console.log] and [setTimeout] callbacks touch no
      field modelled here and are left out. *)

From Stdlib Require Import QArith Qabs Qround Qpower ZArith NArith String Ascii.
From Stdlib Require Import DecimalString DecimalN Sorted Permutation Lqa Lia.
From Stdlib Require Import Floats.
From stdpp Require Import base list.

Local Open Scope Q_scope.

(** ** JavaScript values used by the source *)

(** [x < y] on numbers, as a boolean. *)
Definition Qltb (x y : Q) : bool := negb (Qle_bool y x).

(** *** Binary64

    The result of an IEEE-754 binary64 operation (round to nearest, ties to
    even) is the rounding of its exact result: [x + y] in JavaScript is
    [round64 (x + y)] here, and likewise for [*] and [/].  The significand
    has 53 bits; below [2^-1022] the last place stays at [2^-1074]
    (subnormal numbers).  Overflow to [Infinity] (from [2^1024] on) is not
    modelled, and [-0] is [0]. *)

Definition pow2 (e : Z) : Q := 2 ^ e.

(** [floor (log2 x)] for a positive [x]: the difference of the bit lengths
    of numerator and denominator, or one less. *)
Definition ilog2 (x : Q) : Z :=
  let l := (Z.log2 (Qnum x) - Z.log2 (Z.pos (Qden x)))%Z in
  if Qle_bool (pow2 l) x then l else (l - 1)%Z.

(** The integer nearest to [x], the even one on a tie. *)
Definition roundHalfEven (x : Q) : Z :=
  let f := Qfloor x in
  let r := x - inject_Z f in
  if Qltb r (1 # 2) then f
  else if Qltb (1 # 2) r then (f + 1)%Z
  else if Z.even f then f else (f + 1)%Z.

(** The exponent of the last place of the binary64 numbers around a
    positive [a]. *)
Definition ulpExponent (a : Q) : Z := Z.max (ilog2 a - 52) (-1074).

(** The binary64 number nearest to a positive [a]. *)
Definition roundAbs (a : Q) : Q :=
  let e := ulpExponent a in
  inject_Z (roundHalfEven (a / pow2 e)) * pow2 e.

(** The binary64 number nearest to [x]. *)
Definition round64 (x : Q) : Q :=
  if Qeq_bool x 0 then 0
  else if Qltb x 0 then - roundAbs (Qabs x) else roundAbs (Qabs x).

(** The rational a finite binary64 number of the kernel denotes, to compare
    [round64] with the kernel's own binary64 arithmetic on sample
    operations ([round64_agrees_*] below). *)
Definition valueOf (f : float) : option Q :=
  match Prim2SF f with
  | S754_zero _ => Some 0
  | S754_finite s m e =>
      Some ((if s then - inject_Z (Z.pos m) else inject_Z (Z.pos m)) * pow2 e)
  | _ => None
  end.

Definition sameNumber (f : float) (x : Q) : bool :=
  match valueOf f with
  | Some y => Qeq_bool y x
  | None => false
  end.

(** A number that may be [Infinity] (the initial [minTimeDiff] of
    [NoteManager.hit]). *)
Inductive ext : Type :=
| Finite (q : Q)
| Infinity.

(** [x < e] where [e] may be [Infinity]. *)
Definition ext_ltb (x : Q) (e : ext) : bool :=
  match e with
  | Finite y => Qltb x y
  | Infinity => true
  end.

(** [ToNumber] of a field that holds a number or [null]: [null] is [0]. *)
Definition ToNumber (v : option Q) : Q :=
  match v with
  | Some q => q
  | None => 0
  end.

(** What [calculateAccuracy] returns: a number on one path, the string made
    by [toFixed] on the other. *)
Inductive jsval : Type :=
| JNumber (q : Q)
| JString (s : string).

(** The decimal digits of an integer, ["0"] for zero. *)
Definition digits (n : N) : string := NilEmpty.string_of_uint (N.to_uint n).

(** The string of [k] characters ["0"]. *)
Fixpoint zeros (k : nat) : string :=
  match k with
  | O => EmptyString
  | S k' => String "0" (zeros k')
  end.

(** The integer nearest to [x], the larger one on a tie. *)
Definition roundHalfUp (x : Q) : Z := Qfloor (x + (1 # 2)).

Definition pow10 (f : nat) : Z := (10 ^ Z.of_nat f)%Z.

(** The digit string [m] left-padded with zeros to [f + 1] characters, with
    a point before its last [f] characters (none when [f] is 0). *)
Definition placePoint (f : nat) (m : string) : string :=
  let m := (zeros (S f - String.length m)%nat ++ m)%string in
  let k := String.length m in
  match f with
  | O => m
  | _ => (substring 0 (k - f)%nat m ++ "." ++ substring (k - f)%nat f m)%string
  end.

(** [Number.prototype.toFixed(fractionDigits)] for a finite number below
    [1e21] (ECMAScript, Number.prototype.toFixed, steps 6-12): the sign is
    split off, [n] is the integer for which [n / 10^f - x] is closest to
    zero, the larger one on a tie; its decimal digits are left-padded with
    zeros to [f + 1] characters and the point is put before the last [f]. *)
Definition toFixed (fractionDigits : nat) (x : Q) : string :=
  let s := if Qltb x 0 then "-"%string else EmptyString in
  let x := if Qltb x 0 then - x else x in
  let n := Z.to_N (roundHalfUp (x * inject_Z (pow10 fractionDigits))) in
  (s ++ placePoint fractionDigits (digits n))%string.

(** Reading back a decimal numeral with a point, as [parseFloat] would:
    [unpoint] removes the first point and counts the characters after it;
    [readFixed] gives the integer the remaining digits spell and that
    count, so that the numeral denotes [n / 10^k] for the result [(n, k)]. *)
Fixpoint unpoint (s : string) : string * option nat :=
  match s with
  | EmptyString => (EmptyString, None)
  | String c s' =>
      if Ascii.eqb c "." then (s', Some (String.length s'))
      else let (d, k) := unpoint s' in (String c d, k)
  end.

Definition readFixed (s : string) : option (N * nat) :=
  match unpoint s with
  | (d, Some k) =>
      option_map (fun u => (N.of_uint u, k)) (NilEmpty.uint_of_string d)
  | (_, None) => None
  end.

(** [k] leading zeros in front of a digit sequence. *)
Fixpoint leading (k : nat) (d : Decimal.uint) : Decimal.uint :=
  match k with
  | O => d
  | S k' => Decimal.D0 (leading k' d)
  end.

(** No character of the string is a point. *)
Fixpoint nopoint (s : string) : Prop :=
  match s with
  | EmptyString => True
  | String c s' => Ascii.eqb c "." = false /\ nopoint s'
  end.

(** ** Constants of the note system *)

(** The keys of [JUDGMENT_WINDOWS], [JUDGMENT_SCORES] and [judgmentCounts];
    also the non-null results of [Note.judge]. *)
Inductive Judgment : Type :=
| PERFECT
| GREAT
| GOOD
| MISS.

(** Judgment windows, in seconds. *)
Definition JUDGMENT_WINDOWS (key : Judgment) : Q :=
  match key with
  | PERFECT => 0.050
  | GREAT => 0.100
  | GOOD => 0.150
  | MISS => 0.200
  end.

Definition JUDGMENT_SCORES (key : Judgment) : N :=
  match key with
  | PERFECT => 100
  | GREAT => 80
  | GOOD => 50
  | MISS => 0
  end%N.

(** ** class Note *)

Module Note.

Record t : Type := mk {
  track : Z;       (* lane index *)
  hitTime : Q;     (* when the note should be hit, seconds *)
  isHit : bool;
  isMissed : bool
}.

(** [constructor(track, hitTime)] *)
Definition new (track : Z) (hitTime : Q) : t :=
  mk track hitTime false false.

(** [miss()] *)
Definition miss (n : t) : t :=
  mk (track n) (hitTime n) (isHit n) true.

(** [hit(judgment)] *)
Definition hit (judgment : Judgment) (n : t) : t :=
  mk (track n) (hitTime n) true (isMissed n).

(** [update(currentTime, deltaTime)]; the position computed after the miss
    test only feeds the DOM. *)
Definition update (currentTime deltaTime : Q) (n : t) : t :=
  if isHit n || isMissed n then n
  else
    let timeDiff := hitTime n - currentTime in
    if Qltb timeDiff (- JUDGMENT_WINDOWS MISS) then miss n else n.

(** The [if / else if] chain of [judge]: [None] is [null]. *)
Definition classify (timeDiff : Q) : option Judgment :=
  if Qle_bool timeDiff (JUDGMENT_WINDOWS PERFECT) then Some PERFECT
  else if Qle_bool timeDiff (JUDGMENT_WINDOWS GREAT) then Some GREAT
  else if Qle_bool timeDiff (JUDGMENT_WINDOWS GOOD) then Some GOOD
  else if Qle_bool timeDiff (JUDGMENT_WINDOWS MISS) then Some MISS
  else None.

(** [judge(currentTime)]: the result and the updated note. *)
Definition judge (currentTime : Q) (n : t) : option Judgment * t :=
  if isHit n || isMissed n then (None, n)
  else
    let timeDiff := Qabs (hitTime n - currentTime) in
    let judgment := classify timeDiff in
    match judgment with
    | Some j => (judgment, hit j n)
    | None => (judgment, n)
    end.

(** [!note.isHit && !note.isMissed] *)
Definition pending (n : t) : bool := negb (isHit n) && negb (isMissed n).

End Note.

(** ** class NoteManager *)

Module NoteManager.

(** A chart entry [{track, time}]. *)
Record NoteData : Type := mkData {
  track : Z;
  time : Q
}.

(** The object [judgmentCounts]; [Object.values] lists the properties in
    creation order. *)
Record Counts : Type := mkCounts {
  nPERFECT : N;
  nGREAT : N;
  nGOOD : N;
  nMISS : N
}.

(** [judgmentCounts[judgment]++] *)
Definition incr (key : Judgment) (c : Counts) : Counts :=
  match key with
  | PERFECT => mkCounts (nPERFECT c + 1) (nGREAT c) (nGOOD c) (nMISS c)
  | GREAT => mkCounts (nPERFECT c) (nGREAT c + 1) (nGOOD c) (nMISS c)
  | GOOD => mkCounts (nPERFECT c) (nGREAT c) (nGOOD c + 1) (nMISS c)
  | MISS => mkCounts (nPERFECT c) (nGREAT c) (nGOOD c) (nMISS c + 1)
  end%N.

Definition values (c : Counts) : list N :=
  [nPERFECT c; nGREAT c; nGOOD c; nMISS c].

Record t : Type := mk {
  heap : list Note.t;        (* the Note objects; a reference is an index *)
  notes : list nat;          (* references, all notes ever spawned *)
  activeNotes : list nat;    (* references, notes still in play *)
  chart : list NoteData;
  chartIndex : nat;
  score : N;
  combo : N;
  maxCombo : N;
  judgmentCounts : Counts;
  spawnTime : Q
}.

Definition set_heap (h : list Note.t) (m : t) : t :=
  mk h (notes m) (activeNotes m) (chart m) (chartIndex m)
     (score m) (combo m) (maxCombo m) (judgmentCounts m) (spawnTime m).

Definition set_activeNotes (a : list nat) (m : t) : t :=
  mk (heap m) (notes m) a (chart m) (chartIndex m)
     (score m) (combo m) (maxCombo m) (judgmentCounts m) (spawnTime m).

Definition set_score (s : N) (m : t) : t :=
  mk (heap m) (notes m) (activeNotes m) (chart m) (chartIndex m)
     s (combo m) (maxCombo m) (judgmentCounts m) (spawnTime m).

Definition set_combo (c : N) (m : t) : t :=
  mk (heap m) (notes m) (activeNotes m) (chart m) (chartIndex m)
     (score m) c (maxCombo m) (judgmentCounts m) (spawnTime m).

Definition set_maxCombo (c : N) (m : t) : t :=
  mk (heap m) (notes m) (activeNotes m) (chart m) (chartIndex m)
     (score m) (combo m) c (judgmentCounts m) (spawnTime m).

Definition set_judgmentCounts (c : Counts) (m : t) : t :=
  mk (heap m) (notes m) (activeNotes m) (chart m) (chartIndex m)
     (score m) (combo m) (maxCombo m) c (spawnTime m).

(** [constructor()] *)
Definition new : t :=
  mk [] [] [] [] 0 0%N 0%N 0%N (mkCounts 0 0 0 0) 2.0.

(** [Array.prototype.sort(compareFn)] is a stable sort: elements for which
    [compareFn] gives [0] keep their relative order.  For a comparator
    that is a consistent ordering its result is the one computed here, by
    insertion from the right. *)
Section Sort.
Context {A : Type} (compareFn : A -> A -> Q).

Fixpoint insert (a : A) (l : list A) : list A :=
  match l with
  | [] => [a]
  | b :: l' =>
      if Qle_bool (compareFn a b) 0 then a :: l else b :: insert a l'
  end.

Definition sort (l : list A) : list A := foldr insert [] l.
End Sort.

(** [loadChart(chart)] *)
Definition loadChart (chart : list NoteData) (m : t) : t :=
  mk (heap m) (notes m) (activeNotes m)
     (sort (fun a b => time a - time b) chart) 0
     (score m) (combo m) (maxCombo m) (judgmentCounts m) (spawnTime m).

(** The body of the [if] in [spawnNotes]: allocate the note, push its
    reference on both arrays, advance the index. *)
Definition spawn (noteData : NoteData) (m : t) : t :=
  let note := length (heap m) in
  mk (heap m ++ [Note.new (track noteData) (time noteData)])
     (notes m ++ [note]) (activeNotes m ++ [note])
     (chart m) (S (chartIndex m))
     (score m) (combo m) (maxCombo m) (judgmentCounts m) (spawnTime m).

(** The [while] loop of [spawnNotes]; every iteration that does not leave
    the loop advances [chartIndex], so [chart.length - chartIndex]
    iterations are enough ([spawnLoop_exit] below). *)
Fixpoint spawnLoop (fuel : nat) (currentTime : Q) (m : t) : t :=
  match fuel with
  | O => m
  | S fuel' =>
      match chart m !! chartIndex m with
      | None => m
      | Some noteData =>
          if Qle_bool (time noteData) (round64 (currentTime + spawnTime m))
          then spawnLoop fuel' currentTime (spawn noteData m)
          else m
      end
  end.

(** [spawnNotes(currentTime)] *)
Definition spawnNotes (currentTime : Q) (m : t) : t :=
  spawnLoop (length (chart m) - chartIndex m)%nat currentTime m.

(** [addJudgment(judgment)] *)
Definition addJudgment (judgment : Judgment) (m : t) : t :=
  let m := set_judgmentCounts (incr judgment (judgmentCounts m)) m in
  let m := set_score (score m + JUDGMENT_SCORES judgment) m in
  match judgment with
  | MISS => set_combo 0 m
  | _ =>
      let m := set_combo (combo m + 1) m in
      if (maxCombo m <? combo m)%N then set_maxCombo (combo m) m else m
  end.

(** The callback of the [forEach] in [checkAutoMiss].  A reference in
    [activeNotes] always points into the store ([wf] below); the [None]
    branch is there to make the function total. *)
Definition autoMissStep (currentTime : Q) (m : t) (ref : nat) : t :=
  match heap m !! ref with
  | Some note =>
      if negb (Note.isHit note) && negb (Note.isMissed note) then
        let timeDiff := currentTime - Note.hitTime note in
        if Qltb (JUDGMENT_WINDOWS MISS) timeDiff
        then addJudgment MISS (set_heap (alter Note.miss ref (heap m)) m)
        else m
      else m
  | None => m
  end.

(** [checkAutoMiss(currentTime)] *)
Definition checkAutoMiss (currentTime : Q) (m : t) : t :=
  fold_left (autoMissStep currentTime) (activeNotes m) m.

(** [note => !note.isHit && !note.isMissed], on a reference. *)
Definition isPending (h : list Note.t) (ref : nat) : bool :=
  match h !! ref with
  | Some note => Note.pending note
  | None => false
  end.

(** [update(currentTime, deltaTime)] *)
Definition update (currentTime deltaTime : Q) (m : t) : t :=
  let m := spawnNotes currentTime m in
  let m :=
    set_heap
      (fold_left (fun h ref => alter (Note.update currentTime deltaTime) ref h)
                 (activeNotes m) (heap m)) m in
  let m := set_activeNotes (List.filter (isPending (heap m)) (activeNotes m)) m in
  checkAutoMiss currentTime m.

(** The callback of the [forEach] in [hit]; the accumulator is the pair of
    locals [(closestNote, minTimeDiff)]. *)
Definition closestStep (h : list Note.t) (track : Z) (currentTime : Q)
    (acc : option nat * ext) (ref : nat) : option nat * ext :=
  match h !! ref with
  | Some note =>
      if (Note.track note =? track)%Z && negb (Note.isHit note)
         && negb (Note.isMissed note)
      then
        let timeDiff := Qabs (Note.hitTime note - currentTime) in
        if ext_ltb timeDiff (snd acc)
           && Qle_bool timeDiff (JUDGMENT_WINDOWS MISS)
        then (Some ref, Finite timeDiff)
        else acc
      else acc
  | None => acc
  end.

(** The value of [closestNote] after the [forEach] of [hit]. *)
Definition closest (track : Z) (currentTime : Q) (m : t) : option nat :=
  fst (fold_left (closestStep (heap m) track currentTime)
                 (activeNotes m) (None, Infinity)).

(** [hit(track, currentTime)]: the returned judgment ([None] is [null])
    and the updated manager.  [closestNote] is a reference the loop has
    read through, so its note exists; the inner [None] branch is there to
    make the function total. *)
Definition hit (track : Z) (currentTime : Q) (m : t) : option Judgment * t :=
  match closest track currentTime m with
  | Some closestNote =>
      match heap m !! closestNote with
      | Some note =>
          let (judgment, note') := Note.judge currentTime note in
          let m' := set_heap (<[closestNote := note']> (heap m)) m in
          match judgment with
          | Some j => (Some j, addJudgment j m')
          | None => (None, m')
          end
      | None => (None, m)
      end
  | None => (None, m)
  end.

(** [calculateAccuracy()].  [total], [total * 100] and [weighted] are
    integers, exact in binary64 below [2^53]; the division and the
    multiplication by 100 round, and [toFixed] prints the rounded result. *)
Definition total (m : t) : N :=
  fold_left (fun a b => a + b)%N (values (judgmentCounts m)) 0%N.

Definition weighted (m : t) : N :=
  (nPERFECT (judgmentCounts m) * 100
   + nGREAT (judgmentCounts m) * 80
   + nGOOD (judgmentCounts m) * 50)%N.

Definition ofN (n : N) : Q := inject_Z (Z.of_N n).

Definition calculateAccuracy (m : t) : jsval :=
  if (total m =? 0)%N then JNumber 100
  else
    JString
      (toFixed 2
         (round64 (round64 (ofN (weighted m) / (ofN (total m) * 100)) * 100))).

(** [reset()].  [destroy] only removes DOM elements.  The arrays are
    replaced by empty ones; the notes they referred to stay in the store,
    where nothing refers to them any more. *)
Definition reset (m : t) : t :=
  mk (heap m) [] [] (chart m) 0 0%N 0%N 0%N (mkCounts 0 0 0 0) (spawnTime m).

(** The object [getStats()] returns; [judgmentCounts] is a copy. *)
Record Stats : Type := mkStats {
  stats_score : N;
  stats_combo : N;
  stats_maxCombo : N;
  stats_judgmentCounts : Counts;
  totalNotes : nat;
  hitNotes : N;
  accuracy : jsval
}.

(** [getStats()] *)
Definition getStats (m : t) : Stats :=
  mkStats (score m) (combo m) (maxCombo m) (judgmentCounts m)
          (length (chart m))
          (nPERFECT (judgmentCounts m) + nGREAT (judgmentCounts m)
           + nGOOD (judgmentCounts m))%N
          (calculateAccuracy m).

(** [generateTestChart()].  The results of the successive calls of
    [Math.random()] are the elements of a list; [None] means that the list
    was used up before the function returned. *)

(** [Math.floor(Math.random() * 4)] for the draw [r]. *)
Definition randomTrack (r : Q) : Z := Qfloor (r * 4).

(** The second lane of a double note: a first draw and the loop
    [while (track2 === track)] that draws again. *)
Fixpoint drawOtherTrack (track : Z) (rs : list Q) : option (Z * list Q) :=
  match rs with
  | [] => None
  | r :: rs' =>
      let track2 := randomTrack r in
      if (track2 =? track)%Z then drawOtherTrack track rs' else Some (track2, rs')
  end.

(** The body of the [for] loop, for one value of [time]. *)
Definition testChartBody (time : Q) (testChart : list NoteData) (rs : list Q)
    : option (list NoteData * list Q) :=
  match rs with
  | r1 :: r2 :: rs' =>
      let track := randomTrack r1 in
      let testChart := testChart ++ [mkData track time] in
      if Qltb 0.7 r2 then
        match drawOtherTrack track rs' with
        | Some (track2, rs'') => Some (testChart ++ [mkData track2 time], rs'')
        | None => None
        end
      else Some (testChart, rs')
  | _ => None
  end.

(** The values the variable of
    [for (let time = start; time < limit; time += step)] takes in the
    body; the body does not assign it. *)
Fixpoint forTimes (fuel : nat) (time limit step : Q) : list Q :=
  match fuel with
  | O => []
  | S fuel' =>
      if Qltb time limit then time :: forTimes fuel' (time + step) limit step
      else []
  end.

(** The loop over those values. *)
Fixpoint testChartLoop (times : list Q) (testChart : list NoteData)
    (rs : list Q) : option (list NoteData * list Q) :=
  match times with
  | [] => Some (testChart, rs)
  | time :: times' =>
      match testChartBody time testChart rs with
      | Some (testChart', rs') => testChartLoop times' testChart' rs'
      | None => None
      end
  end.

(** The values of [time]: the loop leaves after 30 rounds, at the 31st
    test ([testChartTimes_exit] below). *)
Definition testChartTimes : list Q :=
  let startTime := 3.0 in
  let interval := 1.0 in
  let duration := 30 in
  forTimes 31 startTime (startTime + duration) interval.

Definition generateTestChart (rs : list Q) (m : t) : option t :=
  match testChartLoop testChartTimes [] rs with
  | Some (testChart, _) => Some (loadChart testChart m)
  | None => None
  end.

(** The calls the rest of the program makes on the manager, and the
    helpers they run. *)
Inductive call : Type :=
| CallLoadChart (chart : list NoteData)
| CallUpdate (currentTime deltaTime : Q)
| CallSpawnNotes (currentTime : Q)
| CallCheckAutoMiss (currentTime : Q)
| CallHit (track : Z) (currentTime : Q)
| CallReset.

Definition run (c : call) (m : t) : t :=
  match c with
  | CallLoadChart chart => loadChart chart m
  | CallUpdate currentTime deltaTime => update currentTime deltaTime m
  | CallSpawnNotes currentTime => spawnNotes currentTime m
  | CallCheckAutoMiss currentTime => checkAutoMiss currentTime m
  | CallHit track currentTime => snd (hit track currentTime m)
  | CallReset => reset m
  end.

(** The manager after a sequence of calls. *)
Definition runs (cs : list call) (m : t) : t :=
  fold_left (fun m c => run c m) cs m.

End NoteManager.

(** ** class InputManager *)

Module InputManager.

(** The fields of a [KeyboardEvent] the handlers read.  [code] is one of
    the key codes of the UI Events specification; none of them names a
    property that objects inherit. *)
Record KeyboardEvent : Type := mkEvent {
  code : string;
  repeat : bool
}.

(** The object [keyMap]; [None] is [undefined]. *)
Definition keyMap (code : string) : option Z :=
  if String.eqb code "KeyZ" then Some 0%Z
  else if String.eqb code "KeyC" then Some 1%Z
  else if String.eqb code "ArrowLeft" then Some 2%Z
  else if String.eqb code "ArrowRight" then Some 3%Z
  else None.

(** A [Set] of strings: its elements in insertion order, without
    repetition. *)
Definition Set_add (x : string) (s : list string) : list string :=
  if existsb (String.eqb x) s then s else s ++ [x].

Definition Set_delete (x : string) (s : list string) : list string :=
  List.filter (fun y => negb (String.eqb x y)) s.

Record t : Type := mk {
  trackStates : list bool;    (* one entry per lane *)
  activeKeys : list string    (* a Set *)
}.

(** [constructor()]; the listeners [init] installs are the handlers
    below. *)
Definition new : t := mk [false; false; false; false] [].

(** [activateTrack(trackIndex)]: the updated manager and the lane
    [onTrackHit] was called with, if it was called.  The guard keeps the
    index inside the four entries of [trackStates]. *)
Definition activateTrack (trackIndex : Z) (s : t) : t * option Z :=
  if (trackIndex <? 0)%Z || (3 <? trackIndex)%Z then (s, None)
  else (mk (<[Z.to_nat trackIndex := true]> (trackStates s)) (activeKeys s),
        Some trackIndex).

(** [deactivateTrack(trackIndex)] *)
Definition deactivateTrack (trackIndex : Z) (s : t) : t :=
  if (trackIndex <? 0)%Z || (3 <? trackIndex)%Z then s
  else mk (<[Z.to_nat trackIndex := false]> (trackStates s)) (activeKeys s).

(** [handleKeyDown(e)] *)
Definition handleKeyDown (e : KeyboardEvent) (s : t) : t * option Z :=
  if repeat e then (s, None)
  else
    match keyMap (code e) with
    | Some trackIndex =>
        let (s', called) := activateTrack trackIndex s in
        (mk (trackStates s') (Set_add (code e) (activeKeys s')), called)
    | None => (s, None)
    end.

(** [handleKeyUp(e)] *)
Definition handleKeyUp (e : KeyboardEvent) (s : t) : t :=
  match keyMap (code e) with
  | Some trackIndex =>
      let s' := deactivateTrack trackIndex s in
      mk (trackStates s') (Set_delete (code e) (activeKeys s'))
  | None => s
  end.

(** [isTrackActive(trackIndex)]; [None] is [undefined]. *)
Definition isTrackActive (trackIndex : nat) (s : t) : option bool :=
  trackStates s !! trackIndex.

(** [getActiveTracks()] *)
Definition getActiveTracks (s : t) : list Z :=
  List.filter (fun index => negb (index =? -1)%Z)
    (imap (fun index (state : bool) => if state then Z.of_nat index else (-1)%Z)
          (trackStates s)).

(** [reset()] *)
Definition reset (s : t) : t := mk [false; false; false; false] [].

End InputManager.

(** ** class Conductor *)

Module Conductor.

Record t : Type := mk {
  startTime : option Q;             (* Date.now() at start, or null *)
  currentTime : Q;                  (* seconds *)
  isRunning : bool;
  bpm : Q;
  timeOffset : Q;                   (* seconds *)
  performanceStartTime : option Q;  (* milliseconds, or null *)
  pausedTime : Q                    (* seconds *)
}.

(** [constructor()] *)
Definition new : t := mk None 0 false 120 0 None 0.

(** [start()]; the two arguments are what [performance.now()] and
    [Date.now()] return during the call. *)
Definition start (performance_now Date_now : Q) (c : t) : t :=
  if isRunning c then c
  else
    let resuming := Qltb 0 (pausedTime c) in
    mk (Some Date_now) (currentTime c) true (bpm c)
       (if resuming then pausedTime c else timeOffset c)
       (Some performance_now)
       (if resuming then 0 else pausedTime c).

(** [pause()] *)
Definition pause (c : t) : t :=
  if negb (isRunning c) then c
  else
    mk (startTime c) (currentTime c) false (bpm c) (timeOffset c)
       (performanceStartTime c) (currentTime c).

(** [reset()] *)
Definition reset (c : t) : t := mk None 0 false (bpm c) 0 None 0.

(** [update(timestamp)] *)
Definition update (timestamp : Q) (c : t) : t :=
  if negb (isRunning c) then c
  else
    let elapsedMs := timestamp - ToNumber (performanceStartTime c) in
    mk (startTime c) ((elapsedMs / 1000) + timeOffset c) (isRunning c)
       (bpm c) (timeOffset c) (performanceStartTime c) (pausedTime c).

(** [getCurrentTime()] *)
Definition getCurrentTime (c : t) : Q := currentTime c.


(** [seekTo(time)]; the first argument is what [performance.now()]
    returns during the call. *)
Definition seekTo (performance_now : Q) (time : Q) (c : t) : t :=
  mk (startTime c) time (isRunning c) (bpm c) time
     (Some performance_now) (pausedTime c).


(** What [getCurrentTime()] returns after each of the [update] calls. *)
Fixpoint readings (timestamps : list Q) (c : t) : list Q :=
  match timestamps with
  | [] => []
  | timestamp :: rest =>
      getCurrentTime (update timestamp c) :: readings rest (update timestamp c)
  end.

(** The value [update] stores while the clock runs, as a function of the
    timestamp. *)
Definition reading (c : t) (timestamp : Q) : Q :=
  (timestamp - ToNumber (performanceStartTime c)) / 1000 + timeOffset c.

(** [setBPM(bpm)] *)
Definition setBPM (b : Q) (c : t) : t :=
  mk (startTime c) (currentTime c) (isRunning c) b (timeOffset c)
     (performanceStartTime c) (pausedTime c).

(** [getBPM()] *)
Definition getBPM (c : t) : Q := bpm c.

(** [getBeatDuration()], for a tempo other than 0 (JavaScript divides by
    zero to [Infinity], which [Q] does not have). *)
Definition getBeatDuration (c : t) : Q := round64 (60 / bpm c).

(** [getCurrentBeat()]: [Math.floor] of the rounded quotient. *)
Definition getCurrentBeat (c : t) : Z :=
  Qfloor (round64 (currentTime c / getBeatDuration c)).

(** [getFormattedTime()] *)
Definition getFormattedTime (c : t) : string := toFixed 2 (currentTime c).

End Conductor.

(** ** class Game *)

Module Game.

(** The fields of [Game] that the game logic uses, with the three global
    objects it drives.  The audio manager is outside the model: where the
    code consults it, the answer is an argument. *)
Record t : Type := mk {
  isRunning : bool;
  isReady : bool;
  lastFrameTime : Q;     (* milliseconds *)
  deltaTime : Q;         (* seconds *)
  fps : ext;
  frameCount : N;
  conductor : Conductor.t;
  inputManager : InputManager.t;
  noteManager : NoteManager.t
}.

(** [constructor()] with the three globals as first created. *)
Definition new : t :=
  mk false false 0 0 (Finite 0) 0%N Conductor.new InputManager.new NoteManager.new.

(** [pause()]; pausing the music does not touch the model. *)
Definition pause (g : t) : t :=
  mk false (isReady g) (lastFrameTime g) (deltaTime g) (fps g) (frameCount g)
     (Conductor.pause (conductor g)) (inputManager g) (noteManager g).

(** [Math.round(1 / deltaTime)] *)
Definition framesPerSecond (deltaTime : Q) : ext :=
  if Qeq_bool deltaTime 0 then Infinity
  else Finite (inject_Z (roundHalfUp (round64 (1 / deltaTime)))).

(** [update(timestamp)]; [ended] is what
    [this.hasMusic && audioManager.isEnded()] evaluates to.  [onGameEnd]
    pauses the game; its report is an [alert]. *)
Definition update (timestamp : Q) (ended : bool) (g : t) : t :=
  let c := Conductor.update timestamp (conductor g) in
  let currentTime := Conductor.getCurrentTime c in
  let nm := NoteManager.update currentTime (deltaTime g) (noteManager g) in
  let g := mk (isRunning g) (isReady g) (lastFrameTime g) (deltaTime g)
              (fps g) (frameCount g) c (inputManager g) nm in
  let g := if ended then pause g else g in
  let frameCount := (frameCount g + 1)%N in
  mk (isRunning g) (isReady g) (lastFrameTime g) (deltaTime g)
     (if (frameCount mod 60 =? 0)%N then framesPerSecond (deltaTime g) else fps g)
     frameCount (conductor g) (inputManager g) (noteManager g).






(** [reset()] in a session without music.  [rs] are the draws of
    [Math.random()] that [generateTestChart] consumes; the other two
    arguments are what [performance.now()] and [Date.now()] return inside
    [conductor.start()].  [None]: the draws ran out before
    [generateTestChart] returned. *)
Definition reset (rs : list Q) (performance_now Date_now : Q) (g : t)
    : option t :=
  let c := Conductor.reset (conductor g) in
  let im := InputManager.reset (inputManager g) in
  let nm := NoteManager.reset (noteManager g) in
  match NoteManager.generateTestChart rs nm with
  | Some nm =>
      Some (mk (isRunning g) (isReady g) (lastFrameTime g) (deltaTime g)
               (fps g) (frameCount g)
               (Conductor.start performance_now Date_now c) im nm)
  | None => None
  end.

End Game.

(** ** Vocabulary of the statements *)

Section Vocabulary.
Import NoteManager.

(** The absolute time error of a note at [currentTime]. *)
Definition dist (currentTime : Q) (note : Note.t) : Q :=
  Qabs (Note.hitTime note - currentTime).

(** The note behind [ref] is on lane [track], neither hit nor missed, and
    at most the Miss window away from [currentTime]. *)
Definition eligible (h : list Note.t) (track : Z) (currentTime : Q)
    (ref : nat) (note : Note.t) : Prop :=
  h !! ref = Some note /\
  Note.track note = track /\
  Note.isHit note = false /\
  Note.isMissed note = false /\
  dist currentTime note <= 0.200.

(** A candidate of [hit(track, currentTime)]: an eligible active note. *)
Definition candidate (track : Z) (currentTime : Q) (m : t)
    (ref : nat) (note : Note.t) : Prop :=
  In ref (activeNotes m) /\ eligible (heap m) track currentTime ref note.


(** Chart entries in ascending order of time. *)
Definition byTime (a b : NoteData) : Prop := time a <= time b.

(** The entry is inside the look-ahead window that ends at [limit]. *)
Definition inWindow (limit : Q) (d : NoteData) : bool :=
  Qle_bool (time d) limit.

(** The longest prefix of [l] whose entries are inside the window. *)
Fixpoint due (limit : Q) (l : list NoteData) : list NoteData :=
  match l with
  | [] => []
  | d :: l' => if inWindow limit d then d :: due limit l' else []
  end.

(** The note [spawnNotes] makes of a chart entry. *)
Definition noteOf (d : NoteData) : Note.t := Note.new (track d) (time d).

(** Every reference held by the two arrays points into the store. *)
Definition wf (m : t) : Prop :=
  Forall (fun ref => (ref < length (heap m))%nat) (notes m) /\
  Forall (fun ref => (ref < length (heap m))%nat) (activeNotes m).

(** The accuracy as the specification words it, over the judgment counts:
    [(100*Perfect + 80*Great + 50*Good) / (total*100) * 100]. *)
Definition accuracyFormula (c : Counts) : Q :=
  (100 * ofN (nPERFECT c) + 80 * ofN (nGREAT c) + 50 * ofN (nGOOD c))
  / (ofN (nPERFECT c + nGREAT c + nGOOD c + nMISS c) * 100) * 100.

(** The chart of the specification's worked example, and the manager that
    has loaded it and spawned at [currentTime = 1.01]. *)
Definition specChart : list NoteData :=
  [mkData 0 3.0; mkData 1 3.0; mkData 0 5.0].

Definition specManager : t := spawnNotes 1.01 (loadChart specChart new).

End Vocabulary.

(** ** Vocabulary of the further properties *)

Section MoreVocabulary.
Import NoteManager.

(** The four statistics fields. *)
Definition stats4 (m : t) : N * N * N * Counts :=
  (score m, combo m, maxCombo m, judgmentCounts m).

(** The score is the weighted sum of the counts, the combo is at most the
    best combo, and the best combo at most the number of non-Miss
    judgments. *)
Definition statsInv (m : t) : Prop :=
  score m = weighted m /\
  (combo m <= maxCombo m)%N /\
  (maxCombo m <= nPERFECT (judgmentCounts m) + nGREAT (judgmentCounts m)
                 + nGOOD (judgmentCounts m))%N.

(** A note is never both hit and missed. *)
Definition exclusive (n : Note.t) : Prop :=
  Note.isHit n && Note.isMissed n = false.

(** The references are valid, neither array repeats one, and every active
    note is among the spawned ones. *)
Definition refsInv (m : t) : Prop :=
  wf m /\ List.NoDup (notes m) /\ List.NoDup (activeNotes m) /\
  (forall ref, In ref (activeNotes m) -> In ref (notes m)).

(** Every spawned note that is still pending is in the active array. *)
Definition activeInv (m : t) : Prop :=
  forall ref note,
    In ref (notes m) -> heap m !! ref = Some note ->
    Note.pending note = true -> In ref (activeNotes m).

(** What may become of a note: lane and time stay, and a note that is hit
    or missed stays exactly as it is. *)
Definition evolves (n n' : Note.t) : Prop :=
  Note.track n' = Note.track n /\
  Note.hitTime n' = Note.hitTime n /\
  (Note.pending n = false -> n' = n).

(** The number of notes of a store that are hit or missed. *)
Definition resolvedCount (h : list Note.t) : nat :=
  length (List.filter (fun n => negb (Note.pending n)) h).

(** The order of a generated chart: a later entry is later in time, or at
    the same time on another lane. *)
Definition laterOrBeside (a b : NoteData) : Prop :=
  time a < time b \/ (time a = time b /\ track a <> track b).

(** The notes one round of the loop of [generateTestChart] appends: one, or
    two on different lanes, with lanes drawn from [rs]. *)
Definition roundNotes (time : Q) (rs : list Q) (g : list NoteData) : Prop :=
  (exists r1, In r1 rs /\ g = [mkData (randomTrack r1) time]) \/
  (exists r1 r2,
      In r1 rs /\ In r2 rs /\ randomTrack r1 <> randomTrack r2 /\
      g = [mkData (randomTrack r1) time; mkData (randomTrack r2) time]).

(** The chart that the rounds of [generateTestChart] push for the values
    [times] of the loop variable and the draws [rs], in the order of the
    pushes.  A round takes its first lane from its first draw.  When its
    second draw is at most 0.7 it pushes that one note.  Otherwise it draws
    until a draw gives another lane and pushes a second note, on that lane,
    after the first.  Draws that are left over are not looked at. *)
Inductive generated : list Q -> list Q -> list NoteData -> Prop :=
| generated_done (rs : list Q) : generated [] rs []
| generated_single (time : Q) (times : list Q) (r1 r2 : Q) (rs : list Q)
    (chart : list NoteData) :
    r2 <= 0.7 ->
    generated times rs chart ->
    generated (time :: times) (r1 :: r2 :: rs)
              (mkData (randomTrack r1) time :: chart)
| generated_double (time : Q) (times : list Q) (r1 r2 : Q) (again : list Q)
    (r3 : Q) (rs : list Q) (chart : list NoteData) :
    0.7 < r2 ->
    Forall (fun r => randomTrack r = randomTrack r1) again ->
    randomTrack r3 <> randomTrack r1 ->
    generated times rs chart ->
    generated (time :: times) (r1 :: r2 :: again ++ r3 :: rs)
              (mkData (randomTrack r1) time
               :: mkData (randomTrack r3) time :: chart).

End MoreVocabulary.

(** * Properties *)

(** The proofs reason about rational arithmetic by its laws and never unfold
    it. *)
#[local] Arguments Qabs : simpl never.
#[local] Arguments Qplus : simpl never.
#[local] Arguments Qminus : simpl never.
#[local] Arguments Qmult : simpl never.
#[local] Arguments Qdiv : simpl never.
#[local] Arguments Qopp : simpl never.
#[local] Arguments Qle_bool : simpl never.
#[local] Arguments Qltb : simpl never.
#[local] Arguments JUDGMENT_WINDOWS : simpl never.
#[local] Arguments dist : simpl never.
#[local] Arguments round64 : simpl never.
#[local] Arguments pow2 : simpl never.

(** ** Comparisons *)

Lemma Qltb_lt (x y : Q) : Qltb x y = true <-> x < y.
Proof.
  unfold Qltb. rewrite negb_true_iff, <- not_true_iff_false, Qle_bool_iff.
  split; [apply Qnot_le_lt | apply Qlt_not_le].
Qed.

Lemma Qltb_ge (x y : Q) : Qltb x y = false <-> y <= x.
Proof. unfold Qltb. rewrite negb_false_iff. apply Qle_bool_iff. Qed.

Lemma Qle_bool_gt (x y : Q) : Qle_bool x y = false <-> y < x.
Proof.
  rewrite <- not_true_iff_false, Qle_bool_iff.
  split; [apply Qnot_le_lt | apply Qlt_not_le].
Qed.

(** ** Rounding to binary64 *)

Section Doubles.

Lemma pow2_pos (e : Z) : 0 < pow2 e.
Proof. apply Qpower_0_lt. reflexivity. Qed.

Lemma pow2_add (a b : Z) : pow2 (a + b) == pow2 a * pow2 b.
Proof. apply Qpower_plus. discriminate. Qed.

Lemma pow2_le (a b : Z) : (a <= b)%Z -> pow2 a <= pow2 b.
Proof. intros H. apply Qpower_le_compat_l; [exact H|discriminate]. Qed.

Lemma pow2_lt_inv (a b : Z) : pow2 a < pow2 b -> (a < b)%Z.
Proof. intros H. apply (Qpower_lt_compat_l_inv 2); [exact H|reflexivity]. Qed.

Lemma pow2_inject (n : Z) : (0 <= n)%Z -> pow2 n == inject_Z (2 ^ n).
Proof. intros H. symmetry. apply (Zpower_Qpower 2 n H). Qed.


Lemma pow2_sub (m n : Z) :
  (0 <= m)%Z -> (0 <= n)%Z ->
  pow2 (m - n) == inject_Z (2 ^ m) / inject_Z (2 ^ n).
Proof.
  intros Hm Hn. unfold pow2 at 1. rewrite Qpower_minus by discriminate.
  fold (pow2 m) (pow2 n). now rewrite !pow2_inject.
Qed.

Lemma Qdiv_lt_cross (a b c d : Q) :
  0 < b -> 0 < d -> a * d < c * b -> a / b < c / d.
Proof.
  intros Hb Hd H. apply Qlt_shift_div_r; [exact Hb|].
  setoid_replace (c / d * b) with (c * b / d) using relation Qeq by (field; lra).
  now apply Qlt_shift_div_l.
Qed.

Lemma Qdiv_le_cross (a b c d : Q) :
  0 < b -> 0 < d -> a * d <= c * b -> a / b <= c / d.
Proof.
  intros Hb Hd H. apply Qle_shift_div_r; [exact Hb|].
  setoid_replace (c / d * b) with (c * b / d) using relation Qeq by (field; lra).
  now apply Qle_shift_div_l.
Qed.

Lemma ilog2_spec (x : Q) :
  0 < x -> pow2 (ilog2 x) <= x /\ x < pow2 (ilog2 x + 1).
Proof.
  intros Hx. destruct x as [p q]. unfold ilog2. cbn [Qnum Qden].
  assert (Hp : (0 < p)%Z) by (unfold Qlt in Hx; simpl in Hx; lia).
  set (a := Z.log2 p). set (b := Z.log2 (Z.pos q)).
  assert (Ha : (0 <= a)%Z) by apply Z.log2_nonneg.
  assert (Hb : (0 <= b)%Z) by apply Z.log2_nonneg.
  destruct (Z.log2_spec p Hp) as (Ha1 & Ha2). fold a in Ha1, Ha2.
  destruct (Z.log2_spec (Z.pos q) eq_refl) as (Hb1 & Hb2). fold b in Hb1, Hb2.
  assert (Hpow : forall n, (0 <= n)%Z -> 0 < inject_Z (2 ^ n)).
  { intros n Hn. rewrite <- pow2_inject by exact Hn. apply pow2_pos. }
  assert (Hpz : forall n, (0 <= n)%Z -> (0 < 2 ^ n)%Z) by (intros; lia).
  assert (E : p # q == inject_Z p / inject_Z (Z.pos q)) by apply Qmake_Qdiv.
  assert (Hq : 0 < inject_Z (Z.pos q)) by reflexivity.
  destruct (Qle_bool (pow2 (a - b)) (p # q)) eqn:Hle.
  - split; [now apply Qle_bool_iff|].
    replace (a - b + 1)%Z with (Z.succ a - b)%Z by lia.
    rewrite pow2_sub by lia. rewrite E.
    apply Qdiv_lt_cross; [exact Hq|apply Hpow, Hb|].
    rewrite <- !inject_Z_mult, <- Zlt_Qlt.
    pose proof (Hpz b Hb). nia.
  - apply Qle_bool_gt in Hle. replace (a - b - 1 + 1)%Z with (a - b)%Z by lia.
    split; [|exact Hle].
    replace (a - b - 1)%Z with (a - Z.succ b)%Z by lia.
    rewrite pow2_sub by lia. rewrite E.
    apply Qdiv_le_cross; [apply Hpow; lia|exact Hq|].
    rewrite <- !inject_Z_mult, <- Zle_Qle.
    pose proof (Hpz a Ha). nia.
Qed.

Lemma ilog2_mono (x y : Q) : 0 < x -> x <= y -> (ilog2 x <= ilog2 y)%Z.
Proof.
  intros Hx Hxy.
  destruct (ilog2_spec x Hx) as (H1 & _).
  destruct (ilog2_spec y) as (_ & H2); [lra|].
  assert (H : pow2 (ilog2 x) < pow2 (ilog2 y + 1)) by lra.
  apply pow2_lt_inv in H. lia.
Qed.

Lemma ulpExponent_mono (x y : Q) :
  0 < x -> x <= y -> (ulpExponent x <= ulpExponent y)%Z.
Proof.
  intros Hx Hxy. unfold ulpExponent. pose proof (ilog2_mono x y Hx Hxy). lia.
Qed.

(** *** Rounding to the nearest integer, ties to even *)

Lemma roundHalfEven_cases (x : Q) :
  let f := Qfloor x in
  let r := x - inject_Z f in
  0 <= r /\ r < 1 /\
  ((r < 1 # 2 /\ roundHalfEven x = f) \/
   ((1 # 2) < r /\ roundHalfEven x = (f + 1)%Z) \/
   (r == 1 # 2 /\ (roundHalfEven x = f \/ roundHalfEven x = (f + 1)%Z))).
Proof.
  cbv zeta. pose proof (Qfloor_le x) as H1. pose proof (Qlt_floor x) as H2.
  rewrite inject_Z_plus in H2.
  split; [lra|]. split; [change (inject_Z 1) with 1 in H2; lra|].
  unfold roundHalfEven.
  destruct (Qltb (x - inject_Z (Qfloor x)) (1 # 2)) eqn:Ea.
  - left. split; [now apply Qltb_lt|reflexivity].
  - right. apply Qltb_ge in Ea.
    destruct (Qltb (1 # 2) (x - inject_Z (Qfloor x))) eqn:Eb.
    + left. split; [now apply Qltb_lt|reflexivity].
    + right. apply Qltb_ge in Eb. split; [lra|].
      destruct (Z.even (Qfloor x)); auto.
Qed.

Lemma roundHalfEven_near (x : Q) :
  Qabs (inject_Z (roundHalfEven x) - x) <= 1 # 2.
Proof.
  destruct (roundHalfEven_cases x) as (H0 & H1 & H).
  apply Qabs_Qle_condition.
  destruct H as [(Hr & ->)|[(Hr & ->)|(Hr & [->| ->])]];
    rewrite ?inject_Z_plus; change (inject_Z 1) with 1; lra.
Qed.

Lemma roundHalfEven_mono (x y : Q) :
  x <= y -> (roundHalfEven x <= roundHalfEven y)%Z.
Proof.
  intros Hxy. pose proof (Qfloor_resp_le _ _ Hxy) as Hf.
  destruct (roundHalfEven_cases x) as (Hx0 & Hx1 & Hx).
  destruct (roundHalfEven_cases y) as (Hy0 & Hy1 & Hy).
  destruct (Z.eq_dec (Qfloor x) (Qfloor y)) as [E|N].
  - unfold roundHalfEven. rewrite <- E.
    assert (Hr : x - inject_Z (Qfloor x) <= y - inject_Z (Qfloor x)) by lra.
    destruct (Qltb (x - inject_Z (Qfloor x)) (1 # 2)) eqn:Ea.
    + destruct (Qltb (y - inject_Z (Qfloor x)) (1 # 2)); [lia|].
      destruct (Qltb (1 # 2) (y - inject_Z (Qfloor x))); [lia|].
      destruct (Z.even (Qfloor x)); lia.
    + apply Qltb_ge in Ea.
      assert (Eb : Qltb (y - inject_Z (Qfloor x)) (1 # 2) = false)
        by (apply Qltb_ge; lra).
      rewrite Eb.
      destruct (Qltb (1 # 2) (x - inject_Z (Qfloor x))) eqn:Ec.
      * apply Qltb_lt in Ec.
        assert (Ed : Qltb (1 # 2) (y - inject_Z (Qfloor x)) = true)
          by (apply Qltb_lt; lra).
        rewrite Ed. lia.
      * destruct (Qltb (1 # 2) (y - inject_Z (Qfloor x)));
          destruct (Z.even (Qfloor x)); lia.
  - assert (roundHalfEven x <= Qfloor x + 1)%Z
      by (destruct Hx as [(_ & ->)|[(_ & ->)|(_ & [->| ->])]]; lia).
    assert (Qfloor y <= roundHalfEven y)%Z
      by (destruct Hy as [(_ & ->)|[(_ & ->)|(_ & [->| ->])]]; lia).
    lia.
Qed.

Lemma roundHalfEven_ge (x : Q) (k : Z) :
  inject_Z k <= x -> (k <= roundHalfEven x)%Z.
Proof.
  intros H. apply Qfloor_resp_le in H. rewrite Qfloor_Z in H.
  destruct (roundHalfEven_cases x) as (_ & _ & Hx).
  destruct Hx as [(_ & ->)|[(_ & ->)|(_ & [->| ->])]]; lia.
Qed.

Lemma roundHalfEven_le (x : Q) (k : Z) :
  x <= inject_Z k -> (roundHalfEven x <= k)%Z.
Proof.
  intros H.
  destruct (roundHalfEven_cases x) as (H0 & H1 & Hx).
  pose proof (Qfloor_le x) as Hf.
  assert (Hlt : (Qfloor x <= k)%Z) by (rewrite Zle_Qle; lra).
  destruct (Z.eq_dec (Qfloor x) k) as [E|N].
  - assert (x - inject_Z (Qfloor x) == 0) by (rewrite E in *; lra).
    destruct Hx as [(_ & ->)|[(Hr & _)|(Hr & _)]]; [lia|lra|lra].
  - destruct Hx as [(_ & ->)|[(_ & ->)|(_ & [->| ->])]]; lia.
Qed.

(** *** Rounding to binary64 *)

Lemma roundAbs_nonneg (a : Q) : 0 <= a -> 0 <= roundAbs a.
Proof.
  intros Ha. unfold roundAbs. apply Qmult_le_0_compat.
  - change 0 with (inject_Z 0). rewrite <- Zle_Qle. apply roundHalfEven_ge.
    apply Qle_shift_div_l; [apply pow2_pos|]. change (inject_Z 0) with 0. lra.
  - apply Qlt_le_weak, pow2_pos.
Qed.

Lemma scaled_lt (a : Q) :
  0 < a -> a / pow2 (ulpExponent a) < inject_Z (2 ^ 53).
Proof.
  intros Ha. apply Qlt_shift_div_r; [apply pow2_pos|].
  rewrite <- (pow2_inject 53) by lia. rewrite <- pow2_add.
  destruct (ilog2_spec a Ha) as (_ & H).
  apply Qlt_le_trans with (1 := H). apply pow2_le. unfold ulpExponent. lia.
Qed.

Lemma scaled_ge (a : Q) :
  0 < a -> (-1074 < ulpExponent a)%Z ->
  inject_Z (2 ^ 52) <= a / pow2 (ulpExponent a).
Proof.
  intros Ha He. apply Qle_shift_div_l; [apply pow2_pos|].
  rewrite <- (pow2_inject 52) by lia. rewrite <- pow2_add.
  destruct (ilog2_spec a Ha) as (H & _).
  apply Qle_trans with (2 := H). apply pow2_le. unfold ulpExponent in *. lia.
Qed.

Lemma roundAbs_mono (a b : Q) : 0 < a -> a <= b -> roundAbs a <= roundAbs b.
Proof.
  intros Ha Hab. assert (Hb : 0 < b) by lra.
  pose proof (ulpExponent_mono a b Ha Hab) as He.
  unfold roundAbs.
  destruct (Z.eq_dec (ulpExponent a) (ulpExponent b)) as [E|N].
  - rewrite E. apply Qmult_le_compat_r; [|apply Qlt_le_weak, pow2_pos].
    rewrite <- Zle_Qle. apply roundHalfEven_mono.
    apply Qmult_le_compat_r; [exact Hab|].
    apply Qlt_le_weak, Qinv_lt_0_compat, pow2_pos.
  - assert (H1 : (roundHalfEven (a / pow2 (ulpExponent a)) <= 2 ^ 53)%Z)
      by (apply roundHalfEven_le, Qlt_le_weak, scaled_lt, Ha).
    assert (H2 : (2 ^ 52 <= roundHalfEven (b / pow2 (ulpExponent b)))%Z).
    { apply roundHalfEven_ge, scaled_ge; [exact Hb|].
      assert (-1074 <= ulpExponent a)%Z by (unfold ulpExponent; lia). lia. }
    rewrite Zle_Qle in H1, H2.
    apply Qle_trans with (inject_Z (2 ^ 53) * pow2 (ulpExponent a)).
    { apply Qmult_le_compat_r; [exact H1|apply Qlt_le_weak, pow2_pos]. }
    apply Qle_trans with (inject_Z (2 ^ 52) * pow2 (ulpExponent b)).
    2:{ apply Qmult_le_compat_r; [exact H2|apply Qlt_le_weak, pow2_pos]. }
    rewrite <- (pow2_inject 53), <- (pow2_inject 52) by lia.
    rewrite <- !pow2_add. apply pow2_le. lia.
Qed.

Lemma round64_nonneg (x : Q) : 0 <= x -> 0 <= round64 x.
Proof.
  intros Hx. unfold round64. destruct (Qeq_bool x 0); [lra|].
  assert (E : Qltb x 0 = false) by (apply Qltb_ge; exact Hx).
  rewrite E. apply roundAbs_nonneg, Qabs_nonneg.
Qed.


Lemma round64_nonpos (x : Q) : x <= 0 -> round64 x <= 0.
Proof.
  intros Hx. unfold round64. destruct (Qeq_bool x 0) eqn:E0; [lra|].
  assert (E : Qltb x 0 = true).
  { apply Qltb_lt. destruct (Qlt_le_dec x 0) as [H|H]; [exact H|].
    assert (H0 : x == 0) by lra. apply Qeq_bool_iff in H0. congruence. }
  rewrite E. pose proof (roundAbs_nonneg (Qabs x) (Qabs_nonneg x)). lra.
Qed.

(** Rounding is monotone. *)
Lemma round64_mono (x y : Q) : x <= y -> round64 x <= round64 y.
Proof.
  intros Hxy.
  destruct (Qlt_le_dec x 0) as [Hx|Hx]; destruct (Qlt_le_dec y 0) as [Hy|Hy].
  - unfold round64.
    assert (Ex : Qeq_bool x 0 = false)
      by (apply Bool.not_true_iff_false; rewrite Qeq_bool_iff; lra).
    assert (Ey : Qeq_bool y 0 = false)
      by (apply Bool.not_true_iff_false; rewrite Qeq_bool_iff; lra).
    rewrite Ex, Ey, (proj2 (Qltb_lt x 0) Hx), (proj2 (Qltb_lt y 0) Hy).
    apply Qopp_le_compat, roundAbs_mono.
    + rewrite Qabs_neg by lra. lra.
    + rewrite !Qabs_neg by lra. lra.
  - apply Qle_trans with 0; [apply round64_nonpos|apply round64_nonneg]; lra.
  - lra.
  - unfold round64. destruct (Qeq_bool x 0) eqn:Ex.
    + fold (round64 y). now apply round64_nonneg.
    + assert (Hx' : 0 < x).
      { destruct (Qlt_le_dec 0 x) as [H|H]; [exact H|].
        assert (H0 : x == 0) by lra. apply Qeq_bool_iff in H0. congruence. }
      assert (Ey : Qeq_bool y 0 = false)
        by (apply Bool.not_true_iff_false; rewrite Qeq_bool_iff; lra).
      rewrite Ey, (proj2 (Qltb_ge x 0) Hx), (proj2 (Qltb_ge y 0) Hy).
      apply roundAbs_mono; rewrite ?Qabs_pos by lra; lra.
Qed.


(** In the normal range the relative error is at most [2^-53]. *)
Lemma roundAbs_error (a : Q) :
  pow2 (-1022) <= a -> Qabs (roundAbs a - a) <= pow2 (-53) * a.
Proof.
  intros Hn. assert (Ha : 0 < a) by (pose proof (pow2_pos (-1022)); lra).
  destruct (ilog2_spec a Ha) as (H1 & H2).
  assert (Hl : (-1022 <= ilog2 a)%Z).
  { assert (H : pow2 (-1022) < pow2 (ilog2 a + 1)) by lra.
    apply pow2_lt_inv in H. lia. }
  unfold roundAbs.
  assert (Ee : ulpExponent a = (ilog2 a - 52)%Z) by (unfold ulpExponent; lia).
  rewrite Ee. set (e := (ilog2 a - 52)%Z).
  pose proof (roundHalfEven_near (a / pow2 e)) as Hr.
  pose proof (pow2_pos e) as He.
  assert (Hu : pow2 (e - 1) <= pow2 (-53) * a).
  { apply Qle_trans with (pow2 (-53) * pow2 (ilog2 a)).
    - rewrite <- pow2_add. apply pow2_le. unfold e. lia.
    - apply Qmult_le_l; [apply pow2_pos|exact H1]. }
  apply Qle_trans with (2 := Hu).
  assert (Eh : pow2 (e - 1) == (1 # 2) * pow2 e).
  { replace (e - 1)%Z with (-1 + e)%Z by lia. rewrite pow2_add. reflexivity. }
  rewrite Eh.
  setoid_replace (inject_Z (roundHalfEven (a / pow2 e)) * pow2 e - a)
    with ((inject_Z (roundHalfEven (a / pow2 e)) - a / pow2 e) * pow2 e)
    using relation Qeq by (field; lra).
  rewrite Qabs_Qmult, (Qabs_pos (pow2 e)) by lra.
  apply Qmult_le_compat_r; [exact Hr|lra].
Qed.

Lemma round64_error (x : Q) :
  pow2 (-1022) <= Qabs x ->
  Qabs (round64 x - x) <= pow2 (-53) * Qabs x.
Proof.
  intros Hn. pose proof (pow2_pos (-1022)) as Hp.
  pose proof (roundAbs_error (Qabs x) Hn) as H.
  unfold round64.
  assert (Ex : Qeq_bool x 0 = false).
  { apply Bool.not_true_iff_false. rewrite Qeq_bool_iff. intros E.
    rewrite E in Hn. change (Qabs 0) with 0 in Hn. lra. }
  rewrite Ex. set (r := roundAbs (Qabs x)) in *.
  destruct (Qltb x 0) eqn:E.
  - apply Qltb_lt in E.
    assert (Ea : Qabs x == - x) by (apply Qabs_neg; lra).
    setoid_replace (- r - x) with (- (r - Qabs x)) using relation Qeq by lra.
    now rewrite Qabs_opp.
  - apply Qltb_ge in E.
    assert (Ea : Qabs x == x) by (apply Qabs_pos; lra).
    setoid_replace (r - x) with (r - Qabs x) using relation Qeq by lra.
    exact H.
Qed.

Lemma round64_pos (x : Q) : pow2 (-1074) <= x -> 0 < round64 x.
Proof.
  intros H. apply Qlt_le_trans with (round64 (pow2 (-1074))).
  - vm_compute. reflexivity.
  - now apply round64_mono.
Qed.

End Doubles.

(** On these operations [round64] of the exact result is the number the
    kernel's binary64 arithmetic computes: a quotient and a product of
    [calculateAccuracy], a look-ahead sum, a beat quotient, sums of
    negative numbers, large factors and subnormal results.  A decimal
    literal denotes the binary64 number nearest to it. *)
#[local] Set Warnings "-inexact-float".

Example round64_agrees_quotient :
  sameNumber (230 / 1600)%float (round64 (230 / 1600)) = true.
Proof. vm_compute. reflexivity. Qed.

Example round64_agrees_product :
  sameNumber (230 / 1600 * 100)%float
             (round64 (round64 (230 / 1600) * 100)) = true.
Proof. vm_compute. reflexivity. Qed.

Example round64_agrees_sum :
  sameNumber (0.9999999999999999 + 2)%float
             (round64 (round64 0.9999999999999999 + 2)) = true.
Proof. vm_compute. reflexivity. Qed.

Example round64_agrees_beat :
  sameNumber (6.8 / (60 / 150))%float
             (round64 (round64 6.8 / round64 (60 / 150))) = true.
Proof. vm_compute. reflexivity. Qed.

Example round64_agrees_negative :
  sameNumber (-0.1 + -0.2)%float
             (round64 (round64 (-0.1) + round64 (-0.2))) = true.
Proof. vm_compute. reflexivity. Qed.

Example round64_agrees_large :
  sameNumber (1 / 3 * 1e300)%float
             (round64 (round64 (1 / 3) * round64 (10 ^ 300))) = true.
Proof. vm_compute. reflexivity. Qed.

Example round64_agrees_subnormal :
  sameNumber (0x1p-1074 / 3)%float (round64 (pow2 (-1074) / 3)) = true /\
  sameNumber (0x1p-1074 * 0.75)%float (round64 (pow2 (-1074) * 0.75)) = true /\
  sameNumber (0x1p-1030 / 3)%float (round64 (pow2 (-1030) / 3)) = true.
Proof. vm_compute. repeat split. Qed.

(** ** The clock *)

Section ConductorFacts.
Import Conductor.



Lemma pause_not_running (c : t) : isRunning (pause c) = false.
Proof. unfold pause. destruct (isRunning c) eqn:E; simpl; auto. Qed.

Lemma pause_currentTime (c : t) : currentTime (pause c) = currentTime c.
Proof. unfold pause. destruct (isRunning c); reflexivity. Qed.

Lemma readings_running (timestamps : list Q) (c : t) :
  isRunning c = true ->
  readings timestamps c = List.map (reading c) timestamps.
Proof.
  revert c. induction timestamps as [|ts tss IH]; intros c H; simpl.
  - reflexivity.
  - assert (Hu : update ts c =
                 mk (startTime c) (reading c ts) true (bpm c) (timeOffset c)
                    (performanceStartTime c) (pausedTime c)).
    { unfold update. rewrite H. reflexivity. }
    rewrite IH by (rewrite Hu; reflexivity).
    rewrite Hu. reflexivity.
Qed.

Lemma reading_mono (c : t) (a b : Q) : a <= b -> reading c a <= reading c b.
Proof.
  unfold reading, Qdiv. intros H.
  apply Qplus_le_l, Qmult_le_compat_r; [lra | discriminate].
Qed.

End ConductorFacts.

Section ConductorClaims.
Import Conductor.



Lemma update_running (timestamp : Q) (c : t) :
  isRunning c = true ->
  getCurrentTime (update timestamp c) = reading c timestamp.
Proof. intros H. unfold update. now rewrite H. Qed.

(** C6: for every time [t], [seekTo(t)] sets the offset to [t], re-anchors
    the clock at the instant of the call and sets the elapsed time to [t]
    at once, so [getCurrentTime()] returns exactly [t] right after the call,
    before any further [update]; an [update] at the anchor instant would
    store the same value. *)
Theorem C6_seekTo_immediate (performance_now time : Q) (c : t) :
  let c' := seekTo performance_now time c in
  timeOffset c' = time /\
  performanceStartTime c' = Some performance_now /\
  currentTime c' = time /\
  getCurrentTime c' = time /\
  reading c' performance_now == time.
Proof.
  simpl. repeat split. unfold reading; simpl. field.
Qed.




(** C8: for every sequence of [update] calls with strictly increasing
    timestamps while the clock is running, with no pause or seek in
    between, the values [getCurrentTime()] returns after the calls are
    non-decreasing: each is at most every later one. *)
Theorem C8_readings_nondecreasing (c : t) (timestamps : list Q) :
  isRunning c = true ->
  Sorted Qlt timestamps ->
  StronglySorted Qle (readings timestamps c).
Proof.
  intros Hrun Hs. rewrite (readings_running timestamps c Hrun).
  apply Sorted_StronglySorted in Hs; [|intros x y z; apply Qlt_trans].
  induction Hs as [|ts tss Hs IH Hall]; simpl; constructor.
  - exact IH.
  - rewrite List.Forall_forall in Hall. apply List.Forall_forall. intros r Hr.
    apply in_map_iff in Hr as (ts' & <- & Hin).
    apply reading_mono, Qlt_le_weak, Hall, Hin.
Qed.

Lemma C8_readings_nondecreasing_witness :
  isRunning (start 1000 0 new) = true /\
  Sorted Qlt [1016; 1033; 1050] /\
  StronglySorted Qle (readings [1016; 1033; 1050] (start 1000 0 new)).
Proof.
  assert (Hs : Sorted Qlt [1016; 1033; 1050]).
  { repeat constructor. }
  split; [reflexivity|]. split; [exact Hs|].
  exact (C8_readings_nondecreasing (start 1000 0 new) [1016; 1033; 1050]
           eq_refl Hs).
Defined.

End ConductorClaims.

(** ** Loading a chart *)

Section SortFacts.
Import NoteManager.

Lemma insert_Permutation {A : Type} (compareFn : A -> A -> Q) (a : A) (l : list A) :
  Permutation (insert compareFn a l) (a :: l).
Proof.
  induction l as [|b l IH]; simpl; [reflexivity|].
  destruct (Qle_bool (compareFn a b) 0); [reflexivity|].
  rewrite IH. apply perm_swap.
Qed.

Lemma sort_Permutation {A : Type} (compareFn : A -> A -> Q) (l : list A) :
  Permutation (sort compareFn l) l.
Proof.
  induction l as [|a l IH]; simpl; [reflexivity|].
  fold (sort compareFn l). rewrite insert_Permutation. now constructor.
Qed.

Lemma byTime_trans (a b c : NoteData) : byTime a b -> byTime b c -> byTime a c.
Proof. unfold byTime. apply Qle_trans. Qed.

Lemma insert_sorted (a : NoteData) (l : list NoteData) :
  StronglySorted byTime l ->
  StronglySorted byTime (insert (fun x y => time x - time y) a l).
Proof.
  induction 1 as [|b l Hs IH Hall]; simpl; [repeat constructor|].
  destruct (Qle_bool (time a - time b) 0) eqn:Hle.
  - apply Qle_bool_iff in Hle. assert (Hab : byTime a b) by (unfold byTime; lra).
    constructor; [now constructor|]. constructor; [exact Hab|].
    eapply Forall_impl; [exact Hall|]. intros x Hx. eapply byTime_trans; eassumption.
  - apply Qle_bool_gt in Hle. constructor; [exact IH|].
    eapply Permutation_Forall; [symmetry; apply insert_Permutation|].
    constructor; [unfold byTime; lra|exact Hall].
Qed.

Lemma sort_sorted (l : list NoteData) :
  StronglySorted byTime (sort (fun x y => time x - time y) l).
Proof.
  induction l as [|a l IH]; simpl; [constructor|]. now apply insert_sorted.
Qed.

(** Pairwise distinct times make the time a key of the entries. *)
Lemma distinct_times_key (l : list NoteData) :
  ForallOrdPairs (fun a b => ~ time a == time b) l ->
  forall a b, In a l -> In b l -> time a == time b -> a = b.
Proof.
  induction 1 as [|x l Hx Hl IH]; intros a b Ha Hb Hab; [destruct Ha|].
  rewrite List.Forall_forall in Hx.
  destruct Ha as [<-|Ha], Hb as [<-|Hb].
  - reflexivity.
  - destruct (Hx _ Hb Hab).
  - symmetry in Hab. destruct (Hx _ Ha Hab).
  - now apply IH.
Qed.

(** Two ascending arrangements of the same entries coincide when the time
    is a key. *)
Lemma sorted_Permutation_unique (l1 l2 : list NoteData) :
  StronglySorted byTime l1 -> StronglySorted byTime l2 ->
  Permutation l1 l2 ->
  (forall a b, In a l1 -> In b l1 -> time a == time b -> a = b) ->
  l1 = l2.
Proof.
  intros H1. revert l2. induction H1 as [|a l1 Hs1 IH Hall1]; intros l2 H2 Hp Hkey.
  - now apply Permutation_nil in Hp.
  - destruct H2 as [|b l2 Hs2 Hall2].
    { symmetry in Hp. now apply Permutation_nil in Hp. }
    rewrite List.Forall_forall in Hall1, Hall2.
    assert (Hab : a = b).
    { assert (Ha : In a (b :: l2)) by (eapply Permutation_in; [exact Hp|now left]).
      assert (Hb : In b (a :: l1))
        by (eapply Permutation_in; [symmetry; exact Hp|now left]).
      destruct Ha as [Ha|Ha]; [now symmetry|].
      destruct Hb as [Hb|Hb]; [exact Hb|].
      apply Hkey; [now left|now right|].
      apply Qle_antisym; [apply (Hall1 _ Hb)|apply (Hall2 _ Ha)]. }
    subst b. f_equal. apply IH.
    + exact Hs2.
    + now apply Permutation_cons_inv in Hp.
    + intros x y Hx Hy. apply Hkey; now right.
Qed.

End SortFacts.

(** ** The model of [Array.prototype.sort] is stable *)

Section SortStable.
Import NoteManager.

(** Entries of equal time keep the order they had in the input. *)
Lemma sort_stable (key : Q) (l : list NoteData) :
  List.filter (fun d => Qeq_bool (time d) key) (sort (fun a b => time a - time b) l)
  = List.filter (fun d => Qeq_bool (time d) key) l.
Proof.
  induction l as [|a l IH]; simpl; [reflexivity|].
  fold (sort (fun a b => time a - time b) l). rewrite <- IH.
  generalize (sort (fun a b => time a - time b) l). clear IH. intros s.
  induction s as [|b s IH]; simpl; [reflexivity|].
  destruct (Qle_bool (time a - time b) 0) eqn:Hle; simpl; [reflexivity|].
  rewrite IH. apply Qle_bool_gt in Hle.
  destruct (Qeq_bool (time a) key) eqn:Ha; [|reflexivity].
  destruct (Qeq_bool (time b) key) eqn:Hb; [|reflexivity].
  apply Qeq_bool_iff in Ha, Hb. exfalso. lra.
Qed.

End SortStable.

(** ** Spawning *)

Section SpawnFacts.
Import NoteManager.

Lemma drop_all_nil {A : Type} (l : list A) (n : nat) :
  (length l <= n)%nat -> drop n l = [].
Proof.
  revert n. induction l as [|x l IH]; intros [|n] H; simpl in *;
    try reflexivity; [lia|apply IH; lia].
Qed.

(** Enough fuel: the loop has run to its exit and has consumed exactly the
    due prefix of the unconsumed entries. *)
Lemma spawnLoop_spec (fuel : nat) (currentTime : Q) (m : t) :
  (length (chart m) - chartIndex m <= fuel)%nat ->
  let ds := due (round64 (currentTime + spawnTime m)) (drop (chartIndex m) (chart m)) in
  spawnLoop fuel currentTime m =
  mk (heap m ++ List.map noteOf ds)
     (notes m ++ seq (length (heap m)) (length ds))
     (activeNotes m ++ seq (length (heap m)) (length ds))
     (chart m) (chartIndex m + length ds)
     (score m) (combo m) (maxCombo m) (judgmentCounts m) (spawnTime m).
Proof.
  revert m. induction fuel as [|fuel IH]; intros m Hf; simpl.
  - rewrite drop_all_nil by lia. simpl.
    rewrite !app_nil_r, Nat.add_0_r. now destruct m.
  - destruct (chart m !! chartIndex m) as [d|] eqn:Hd.
    + rewrite (drop_S _ _ _ Hd). simpl. unfold inWindow.
      destruct (Qle_bool (time d) (round64 (currentTime + spawnTime m))) eqn:Hle.
      * rewrite IH by (simpl; lia). simpl.
        rewrite length_app, <- !app_assoc. simpl.
        rewrite Nat.add_1_r, Nat.add_succ_r. reflexivity.
      * simpl. rewrite !app_nil_r, Nat.add_0_r. now destruct m.
    + apply lookup_ge_None in Hd. rewrite drop_all_nil by lia. simpl.
      rewrite !app_nil_r, Nat.add_0_r. now destruct m.
Qed.

Lemma spawnNotes_spec (currentTime : Q) (m : t) :
  let ds := due (round64 (currentTime + spawnTime m)) (drop (chartIndex m) (chart m)) in
  spawnNotes currentTime m =
  mk (heap m ++ List.map noteOf ds)
     (notes m ++ seq (length (heap m)) (length ds))
     (activeNotes m ++ seq (length (heap m)) (length ds))
     (chart m) (chartIndex m + length ds)
     (score m) (combo m) (maxCombo m) (judgmentCounts m) (spawnTime m).
Proof. apply spawnLoop_spec. lia. Qed.

Lemma due_stop (limit : Q) (l : list NoteData) :
  match l !! length (due limit l) with
  | Some d => limit < time d
  | None => True
  end.
Proof.
  induction l as [|x l IH]; simpl; [exact I|].
  unfold inWindow at 1. destruct (Qle_bool (time x) limit) eqn:Hle; simpl.
  - exact IH.
  - now apply Qle_bool_gt.
Qed.

(** The loop stops only at the end of the chart or at an entry outside the
    window. *)
Lemma spawnLoop_exit (currentTime : Q) (m : t) :
  match chart (spawnNotes currentTime m)
        !! chartIndex (spawnNotes currentTime m) with
  | Some d => round64 (currentTime + spawnTime m) < time d
  | None => True
  end.
Proof.
  rewrite spawnNotes_spec. simpl. rewrite <- lookup_drop. apply due_stop.
Qed.

Lemma due_sorted (limit : Q) (l : list NoteData) :
  StronglySorted byTime l -> due limit l = List.filter (inWindow limit) l.
Proof.
  induction 1 as [|d l Hs IH Hall]; simpl; [reflexivity|].
  destruct (inWindow limit d) eqn:Hd; [now rewrite IH|].
  symmetry. clear IH Hs. induction Hall as [|x l Hx Hall IH]; simpl; [reflexivity|].
  rewrite IH. unfold inWindow in *. apply Qle_bool_gt in Hd.
  destruct (Qle_bool (time x) limit) eqn:Hx'; [|reflexivity].
  apply Qle_bool_iff in Hx'. unfold byTime in Hx. exfalso. lra.
Qed.

Lemma StronglySorted_drop_keeps {A : Type} (R : A -> A -> Prop) (l : list A) (n : nat) :
  StronglySorted R l -> StronglySorted R (drop n l).
Proof.
  revert n. induction l as [|x l IH]; intros [|n] H; simpl; auto.
  apply IH. now inversion H.
Qed.

End SpawnFacts.

Section ChartClaims.
Import NoteManager.

(** C2, the claim as stated fails: with the example chart and a look-ahead
    of 2.0 s, [spawnNotes] at [currentTime = 1.0] does not spawn zero notes;
    it spawns both notes of time 3.0, because [3.0 <= 1.0 + 2.0]. *)
Lemma C2_spawn_at_boundary_counterexample :
  List.map Note.hitTime (heap (spawnNotes 1.0 (loadChart specChart new)))
  = [3.0; 3.0] /\
  activeNotes (spawnNotes 1.0 (loadChart specChart new)) <> [].
Proof.
  split; [reflexivity|]. vm_compute. discriminate.
Qed.

(** With the example chart nothing is spawned exactly when the computed
    sum is below 3.0. *)
Lemma specChart_none (currentTime : Q) :
  heap (spawnNotes currentTime (loadChart specChart new)) = []
  <-> round64 (currentTime + 2.0) < 3.0.
Proof.
  rewrite spawnNotes_spec.
  change (loadChart specChart new)
    with (mk [] [] [] specChart 0 0 0 0 (mkCounts 0 0 0 0) 2.0).
  cbn [heap chart chartIndex spawnTime drop specChart due app].
  unfold inWindow at 1. cbn [time].
  destruct (Qle_bool 3.0 (round64 (currentTime + 2.0))) eqn:E.
  - apply Qle_bool_iff in E. split; [intros [=]|intros H; lra].
  - apply Qle_bool_gt in E. split; [intros _; exact E|reflexivity].
Qed.

(** C2 (amended): on a chart in ascending order of time, as [loadChart]
    stores it, [spawnNotes] spawns, in chart order, exactly the unconsumed
    entries whose time is at most the sum [currentTime + spawnTime] as the
    source computes it, rounded to binary64 (the bound is inclusive), as
    pending notes appended to the store and to both arrays, and advances
    the index by their number, never backwards.  With the example chart and
    a look-ahead of 2.0 s both notes of time 3.0 are spawned at
    [currentTime = 1.0] and at [currentTime = 1.01], and already at
    [1 - 2^-53], the binary64 number just below 1.0, where the sum rounds
    to 3.0.  None is spawned exactly when the computed sum is below 3.0,
    which is the case at every [currentTime] up to 0.999. *)
Theorem C2_spawnNotes_window (m : t) (currentTime : Q) :
  StronglySorted byTime (chart m) ->
  let ds := List.filter (inWindow (round64 (currentTime + spawnTime m)))
                        (drop (chartIndex m) (chart m)) in
  let m' := spawnNotes currentTime m in
  heap m' = heap m ++ List.map noteOf ds /\
  notes m' = notes m ++ seq (length (heap m)) (length ds) /\
  activeNotes m' = activeNotes m ++ seq (length (heap m)) (length ds) /\
  chartIndex m' = (chartIndex m + length ds)%nat /\
  chart m' = chart m /\
  heap (spawnNotes 1.0 (loadChart specChart new))
  = [Note.new 0 3.0; Note.new 1 3.0] /\
  heap (spawnNotes 1.01 (loadChart specChart new))
  = [Note.new 0 3.0; Note.new 1 3.0] /\
  heap (spawnNotes (1 - pow2 (-53)) (loadChart specChart new))
  = [Note.new 0 3.0; Note.new 1 3.0] /\
  (heap (spawnNotes currentTime (loadChart specChart new)) = []
   <-> round64 (currentTime + 2.0) < 3.0) /\
  (currentTime <= 0.999 ->
   heap (spawnNotes currentTime (loadChart specChart new)) = []).
Proof.
  intros Hs. cbv zeta.
  rewrite <- (due_sorted _ _ (StronglySorted_drop_keeps _ _ (chartIndex m) Hs)).
  rewrite (spawnNotes_spec currentTime m). cbn [heap notes activeNotes chartIndex chart].
  do 5 (split; [reflexivity|]).
  do 3 (split; [vm_compute; reflexivity|]).
  split; [apply specChart_none|].
  intros Hle. apply specChart_none.
  apply Qle_lt_trans with (round64 (0.999 + 2.0)).
  - apply round64_mono. lra.
  - vm_compute. reflexivity.
Qed.

Lemma C2_spawnNotes_window_witness :
  StronglySorted byTime (chart (loadChart specChart new)) /\
  activeNotes (spawnNotes 1.0 (loadChart specChart new)) = [0; 1]%nat /\
  chartIndex (spawnNotes 1.0 (loadChart specChart new)) = 2%nat.
Proof.
  pose proof (sort_sorted specChart) as Hs.
  split; [exact Hs|].
  destruct (C2_spawnNotes_window (loadChart specChart new) 1.0 Hs)
    as (_ & _ & Ha & Hi & _).
  split; [rewrite Ha|rewrite Hi]; reflexivity.
Defined.

(** C10: for every input chart, [loadChart] stores a permutation of it in
    ascending order of time and resets the consumption index to 0; so two
    input charts that are permutations of each other with pairwise distinct
    times give the same stored sequence, hence the same manager and the same
    spawns; and what [spawnNotes] then spawns is in ascending order of time
    whatever the order of the input. *)
Theorem C10_loadChart_sorts (input : list NoteData) (m : t) :
  StronglySorted byTime (chart (loadChart input m)) /\
  Permutation input (chart (loadChart input m)) /\
  chartIndex (loadChart input m) = 0%nat /\
  (forall input2,
      Permutation input input2 ->
      ForallOrdPairs (fun a b => ~ time a == time b) input ->
      chart (loadChart input2 m) = chart (loadChart input m) /\
      forall currentTime,
        spawnNotes currentTime (loadChart input2 m)
        = spawnNotes currentTime (loadChart input m)) /\
  (forall currentTime,
      exists ds,
        heap (spawnNotes currentTime (loadChart input m))
        = heap m ++ List.map noteOf ds /\
        StronglySorted byTime ds /\
        ds = List.filter (inWindow (round64 (currentTime + spawnTime m)))
                         (chart (loadChart input m))).
Proof.
  assert (Hsorted : forall l, StronglySorted byTime (chart (loadChart l m)))
    by (intros l; apply sort_sorted).
  assert (Hperm : forall l, Permutation l (chart (loadChart l m)))
    by (intros l; symmetry; apply sort_Permutation).
  split; [apply Hsorted|]. split; [apply Hperm|]. split; [reflexivity|]. split.
  - intros input2 Hp Hd.
    assert (E : chart (loadChart input2 m) = chart (loadChart input m)).
    { symmetry. apply sorted_Permutation_unique; [apply Hsorted..| |].
      - rewrite <- (Hperm input), <- (Hperm input2). exact Hp.
      - intros a b Ha Hb. apply (distinct_times_key _ Hd).
        + eapply Permutation_in; [symmetry; apply Hperm|exact Ha].
        + eapply Permutation_in; [symmetry; apply Hperm|exact Hb]. }
    split; [exact E|]. intros currentTime.
    assert (E' : loadChart input2 m = loadChart input m)
      by (unfold loadChart in *; simpl in E; now rewrite E).
    now rewrite E'.
  - intros currentTime. eexists. rewrite spawnNotes_spec. simpl.
    rewrite due_sorted by apply sort_sorted.
    split; [reflexivity|]. split; [|reflexivity].
    generalize (sort_sorted input).
    generalize (sort (fun a b => time a - time b) input). intros l Hl.
    induction Hl as [|a l Hl IH Hall]; simpl; [constructor|].
    destruct (inWindow _ a); [|exact IH]. constructor; [exact IH|].
    clear IH Hl. induction Hall as [|x l Hx Hall IH]; simpl; [constructor|].
    destruct (inWindow _ x); [constructor|]; assumption.
Qed.

Lemma C10_loadChart_sorts_witness :
  let input := [mkData 0 5.0; mkData 1 3.0; mkData 2 4.0] in
  let input2 := [mkData 2 4.0; mkData 0 5.0; mkData 1 3.0] in
  Permutation input input2 /\
  ForallOrdPairs (fun a b => ~ time a == time b) input /\
  chart (loadChart input2 new) = chart (loadChart input new) /\
  chart (loadChart input new) = [mkData 1 3.0; mkData 2 4.0; mkData 0 5.0].
Proof.
  cbv zeta.
  assert (Hp : Permutation [mkData 0 5.0; mkData 1 3.0; mkData 2 4.0]
                           [mkData 2 4.0; mkData 0 5.0; mkData 1 3.0]).
  { apply (Permutation_cons_app [mkData 2 4.0] [mkData 1 3.0]). apply perm_swap. }
  assert (Hd : ForallOrdPairs (fun a b => ~ time a == time b)
                 [mkData 0 5.0; mkData 1 3.0; mkData 2 4.0]).
  { repeat constructor; intros H; discriminate H. }
  split; [exact Hp|]. split; [exact Hd|].
  split; [|reflexivity].
  exact (proj1 (proj1 (proj2 (proj2 (proj2
           (C10_loadChart_sorts [mkData 0 5.0; mkData 1 3.0; mkData 2 4.0] new))))
           _ Hp Hd)).
Defined.

End ChartClaims.

(** ** Selecting the nearest note *)

Section HitFacts.
Import NoteManager.

Lemma eligible_dec (h : list Note.t) (track : Z) (currentTime : Q) (ref : nat) :
  (exists note, eligible h track currentTime ref note) \/
  (forall note, ~ eligible h track currentTime ref note).
Proof.
  unfold eligible. destruct (h !! ref) as [note|]; [|right; intros n (H & _); discriminate].
  destruct (Z.eq_dec (Note.track note) track) as [Ht|Ht];
    [|right; intros n (H & H1 & _); congruence].
  destruct (Note.isHit note) eqn:Eh; [right; intros n (H & _ & H1 & _); congruence|].
  destruct (Note.isMissed note) eqn:Em;
    [right; intros n (H & _ & _ & H1 & _); congruence|].
  destruct (Qlt_le_dec 0.200 (dist currentTime note)) as [Hd|Hd].
  - right. intros n (H & _ & _ & _ & H1). injection H as <-.
    apply (Qlt_not_le _ _ Hd H1).
  - left. exists note. repeat split; assumption.
Qed.

Lemma closestStep_eligible h track currentTime acc ref note :
  eligible h track currentTime ref note ->
  closestStep h track currentTime acc ref =
  if ext_ltb (dist currentTime note) (snd acc)
  then (Some ref, Finite (dist currentTime note)) else acc.
Proof.
  intros (Hl & Ht & Hh & Hm & Hd). unfold closestStep. rewrite Hl, Ht, Hh, Hm.
  rewrite Z.eqb_refl. simpl. fold (dist currentTime note).
  apply Qle_bool_iff in Hd. change (JUDGMENT_WINDOWS MISS) with 0.200.
  rewrite Hd, andb_true_r. reflexivity.
Qed.

Lemma closestStep_not_eligible h track currentTime acc ref :
  (forall note, ~ eligible h track currentTime ref note) ->
  closestStep h track currentTime acc ref = acc.
Proof.
  intros Hno. unfold closestStep.
  destruct (h !! ref) as [note|] eqn:Hl; [|reflexivity].
  destruct (Z.eqb_spec (Note.track note) track) as [Ht|Ht]; [|reflexivity].
  destruct (Note.isHit note) eqn:Eh; [reflexivity|].
  destruct (Note.isMissed note) eqn:Em; [reflexivity|]. simpl.
  fold (dist currentTime note).
  destruct (Qle_bool (dist currentTime note) (JUDGMENT_WINDOWS MISS)) eqn:Hd.
  - exfalso. apply (Hno note). apply Qle_bool_iff in Hd.
    repeat split; assumption.
  - now rewrite andb_false_r.
Qed.

(** The state of the locals [(closestNote, minTimeDiff)] after the loop has
    visited the references [l]. *)
Lemma closest_fold h track currentTime (l : list nat) :
  let acc := fold_left (closestStep h track currentTime) l (None, Infinity) in
  (acc = (None, Infinity) /\
   forall ref note, In ref l -> ~ eligible h track currentTime ref note) \/
  (exists ref note,
      acc = (Some ref, Finite (dist currentTime note)) /\
      In ref l /\ eligible h track currentTime ref note /\
      forall ref' note', In ref' l -> eligible h track currentTime ref' note' ->
                         dist currentTime note <= dist currentTime note').
Proof.
  induction l as [|x l IH] using rev_ind; simpl.
  - left. split; [reflexivity|]. intros ref note [].
  - rewrite fold_left_app. simpl.
    destruct (eligible_dec h track currentTime x) as [(nx & Hx)|Hx].
    + rewrite (closestStep_eligible _ _ _ _ _ _ Hx).
      destruct IH as [(-> & Hno)|(r & n & -> & Hin & Hel & Hmin)]; simpl.
      * right. exists x, nx. split; [reflexivity|].
        split; [apply in_or_app; right; now left|]. split; [exact Hx|].
        intros ref' note' Hin' Hel'. apply in_app_or in Hin' as [Hin'|[<-|[]]].
        -- destruct (Hno _ _ Hin' Hel').
        -- destruct Hx as (Hx & _), Hel' as (Hx' & _).
           rewrite Hx in Hx'. injection Hx' as <-. apply Qle_refl.
      * destruct (Qltb (dist currentTime nx) (dist currentTime n)) eqn:Hlt.
        -- apply Qltb_lt in Hlt. right. exists x, nx. split; [reflexivity|].
           split; [apply in_or_app; right; now left|]. split; [exact Hx|].
           intros ref' note' Hin' Hel'. apply in_app_or in Hin' as [Hin'|[<-|[]]].
           ++ apply Qlt_le_weak. eapply Qlt_le_trans; [exact Hlt|].
              apply (Hmin _ _ Hin' Hel').
           ++ destruct Hx as (Hx & _), Hel' as (Hx' & _).
              rewrite Hx in Hx'. injection Hx' as <-. apply Qle_refl.
        -- apply Qltb_ge in Hlt. right. exists r, n. split; [reflexivity|].
           split; [apply in_or_app; now left|]. split; [exact Hel|].
           intros ref' note' Hin' Hel'. apply in_app_or in Hin' as [Hin'|[<-|[]]].
           ++ apply (Hmin _ _ Hin' Hel').
           ++ destruct Hx as (Hx & _), Hel' as (Hx' & _).
              rewrite Hx in Hx'. injection Hx' as <-. exact Hlt.
    + rewrite (closestStep_not_eligible _ _ _ _ _ Hx).
      destruct IH as [(-> & Hno)|(r & n & -> & Hin & Hel & Hmin)].
      * left. split; [reflexivity|].
        intros ref note Hin' Hel'. apply in_app_or in Hin' as [Hin'|[<-|[]]].
        -- apply (Hno _ _ Hin' Hel').
        -- apply (Hx _ Hel').
      * right. exists r, n. split; [reflexivity|].
        split; [apply in_or_app; now left|]. split; [exact Hel|].
        intros ref' note' Hin' Hel'. apply in_app_or in Hin' as [Hin'|[<-|[]]].
        -- apply (Hmin _ _ Hin' Hel').
        -- destruct (Hx _ Hel').
Qed.

Lemma closest_Some track currentTime m ref :
  closest track currentTime m = Some ref ->
  exists note,
    candidate track currentTime m ref note /\
    forall ref' note', candidate track currentTime m ref' note' ->
                       dist currentTime note <= dist currentTime note'.
Proof.
  unfold closest, candidate. intros H.
  destruct (closest_fold (heap m) track currentTime (activeNotes m))
    as [(E & _)|(r & n & E & Hin & Hel & Hmin)]; rewrite E in H; simpl in H.
  - discriminate.
  - injection H as <-. exists n. split; [now split|].
    intros ref' note' (Hin' & Hel'). apply (Hmin _ _ Hin' Hel').
Qed.


End HitFacts.

(** ** Judging the selected note *)

Section JudgeFacts.
Import NoteManager.


Lemma classify_within (d : Q) :
  d <= 0.200 -> exists j, Note.classify d = Some j.
Proof.
  intros H. destruct (Note.classify d) as [j|] eqn:E; [now exists j|].
  exfalso. revert E. unfold Note.classify.
  destruct (Qle_bool d (JUDGMENT_WINDOWS PERFECT)); [discriminate|].
  destruct (Qle_bool d (JUDGMENT_WINDOWS GREAT)); [discriminate|].
  destruct (Qle_bool d (JUDGMENT_WINDOWS GOOD)); [discriminate|].
  apply Qle_bool_iff in H. change (JUDGMENT_WINDOWS MISS) with 0.200.
  rewrite H. discriminate.
Qed.

Lemma judge_pending (currentTime : Q) (note : Note.t) (j : Judgment) :
  Note.isHit note = false -> Note.isMissed note = false ->
  Note.classify (dist currentTime note) = Some j ->
  Note.judge currentTime note = (Some j, Note.hit j note).
Proof.
  intros Hh Hm Hc. unfold Note.judge. rewrite Hh, Hm. simpl.
  fold (dist currentTime note). now rewrite Hc.
Qed.

(** What [hit] does once the loop has selected [ref]. *)
Lemma hit_selected track currentTime m ref :
  closest track currentTime m = Some ref ->
  exists note j,
    candidate track currentTime m ref note /\
    (forall ref' note', candidate track currentTime m ref' note' ->
                        dist currentTime note <= dist currentTime note') /\
    Note.classify (dist currentTime note) = Some j /\
    hit track currentTime m =
    (Some j, addJudgment j (set_heap (<[ref := Note.hit j note]> (heap m)) m)).
Proof.
  intros Hc. destruct (closest_Some _ _ _ _ Hc) as (note & Hcand & Hmin).
  destruct Hcand as (Hin & Hl & Ht & Hh & Hm & Hd).
  destruct (classify_within _ Hd) as (j & Hj).
  exists note, j. split; [repeat split; assumption|]. split; [exact Hmin|].
  split; [exact Hj|].
  unfold hit. rewrite Hc, Hl, (judge_pending _ _ _ Hh Hm Hj). reflexivity.
Qed.


Lemma addJudgment_heap (j : Judgment) (m : t) : heap (addJudgment j m) = heap m.
Proof.
  destruct j; unfold addJudgment; simpl; try reflexivity;
    match goal with |- context [if ?b then _ else _] => destruct b end;
    reflexivity.
Qed.

End JudgeFacts.

Section HitClaims.
Import NoteManager.







End HitClaims.

(** ** Ageing and the automatic miss *)

Section LifecycleFacts.
Import NoteManager.

(** After [Note.update] a note that is still pending is not yet past the
    Miss window. *)
Lemma Note_update_settled (currentTime deltaTime : Q) (note : Note.t) :
  Note.pending (Note.update currentTime deltaTime note) = true ->
  currentTime - Note.hitTime (Note.update currentTime deltaTime note)
  <= JUDGMENT_WINDOWS MISS.
Proof.
  unfold Note.update, Note.pending.
  destruct (Note.isHit note) eqn:Eh; simpl; [rewrite Eh; simpl; intros [=]|].
  destruct (Note.isMissed note) eqn:Em; simpl;
    [rewrite Eh, Em; simpl; intros [=]|].
  destruct (Qltb _ _) eqn:E; simpl; [rewrite andb_false_r; intros [=]|].
  intros _. apply Qltb_ge in E. lra.
Qed.

(** [Note.update] marks a pending note missed as soon as the Miss window
    has passed. *)
Lemma Note_update_late (currentTime deltaTime : Q) (note : Note.t) :
  Note.pending note = true ->
  JUDGMENT_WINDOWS MISS < currentTime - Note.hitTime note ->
  Note.update currentTime deltaTime note = Note.miss note.
Proof.
  unfold Note.update, Note.pending. intros Hp Hlate.
  destruct (Note.isHit note); [discriminate|].
  destruct (Note.isMissed note); [discriminate|]. simpl.
  assert (E : Qltb (Note.hitTime note - currentTime) (- JUDGMENT_WINDOWS MISS) = true)
    by (apply Qltb_lt; lra).
  now rewrite E.
Qed.

Lemma forEach_update_settled (currentTime deltaTime : Q) (refs : list nat)
    (h : list Note.t) (ref : nat) (note : Note.t) :
  In ref refs ->
  fold_left (fun h ref => alter (Note.update currentTime deltaTime) ref h) refs h
  !! ref = Some note ->
  Note.pending note = true ->
  currentTime - Note.hitTime note <= JUDGMENT_WINDOWS MISS.
Proof.
  induction refs as [|x refs IH] using rev_ind; intros Hin; [destruct Hin|].
  rewrite fold_left_app. simpl.
  destruct (Nat.eq_dec x ref) as [->|Hne].
  - rewrite list_lookup_alter_eq.
    destruct (_ !! ref) as [n0|]; simpl; [|intros [=]].
    intros [= <-]. apply Note_update_settled.
  - rewrite list_lookup_alter_ne by exact Hne.
    apply IH. apply in_app_or in Hin as [Hin|[Hx|[]]]; [exact Hin|congruence].
Qed.

Lemma autoMissStep_settled (currentTime : Q) (m : t) (ref : nat) :
  (forall note, heap m !! ref = Some note -> Note.pending note = true ->
                currentTime - Note.hitTime note <= JUDGMENT_WINDOWS MISS) ->
  autoMissStep currentTime m ref = m.
Proof.
  intros H. unfold autoMissStep.
  destruct (heap m !! ref) as [note|]; [|reflexivity].
  specialize (H note eq_refl). unfold Note.pending in H.
  destruct (negb (Note.isHit note) && negb (Note.isMissed note)); [|reflexivity].
  assert (E : Qltb (JUDGMENT_WINDOWS MISS) (currentTime - Note.hitTime note) = false)
    by (apply Qltb_ge; auto).
  now rewrite E.
Qed.

Lemma checkAutoMiss_settled (currentTime : Q) (m : t) :
  (forall ref note, In ref (activeNotes m) -> heap m !! ref = Some note ->
                    Note.pending note = true ->
                    currentTime - Note.hitTime note <= JUDGMENT_WINDOWS MISS) ->
  checkAutoMiss currentTime m = m.
Proof.
  unfold checkAutoMiss. generalize (activeNotes m). intros l H.
  induction l as [|x l IH]; simpl; [reflexivity|].
  rewrite autoMissStep_settled by (intros note; apply H; now left).
  apply IH. intros ref note Hin. apply H. now right.
Qed.

(** Inside [update] the call of [checkAutoMiss] finds nothing to do: the
    notes past the Miss window were marked by [Note.update] and filtered
    out just before. *)
Lemma update_spec (currentTime deltaTime : Q) (m : t) :
  let m1 := spawnNotes currentTime m in
  let h := fold_left (fun h ref => alter (Note.update currentTime deltaTime) ref h)
                     (activeNotes m1) (heap m1) in
  update currentTime deltaTime m =
  set_activeNotes (List.filter (isPending h) (activeNotes m1)) (set_heap h m1).
Proof.
  cbv zeta. unfold update. apply checkAutoMiss_settled. simpl.
  intros ref note Hin Hl Hp. apply filter_In in Hin as (Hin & _).
  eapply forEach_update_settled; eassumption.
Qed.

Lemma update_keeps_stats (currentTime deltaTime : Q) (m : t) :
  score (update currentTime deltaTime m) = score m /\
  combo (update currentTime deltaTime m) = combo m /\
  maxCombo (update currentTime deltaTime m) = maxCombo m /\
  judgmentCounts (update currentTime deltaTime m) = judgmentCounts m.
Proof.
  rewrite update_spec. simpl. rewrite spawnNotes_spec. simpl. auto.
Qed.

End LifecycleFacts.

Section LifecycleClaims.
Import NoteManager.

(** C1 fails on the code.  The chart has a note on lane 0 at 3.0 and one on
    lane 1 at 4.0; both are spawned by [update(2.0)], the first is hit
    at 3.0 (Perfect, combo 1) and the second receives no player action.
    [update(4.3)] finds it 0.3 s past its time and marks it missed, yet
    the Miss count stays 0 and the combo stays 1: no Miss judgment is
    emitted.  [checkAutoMiss(4.3)] called on the same state does emit it
    (Miss count 1, combo 0); inside [update] it never fires, for any
    manager and any time, and [update] leaves score, combo, maxCombo and the
    counts as they were. *)
Theorem C1_auto_miss_emits_no_judgment :
  let m := snd (hit 0 3.0 (update 2.0 0.016
                 (loadChart [mkData 0 3.0; mkData 1 4.0] new))) in
  (combo m = 1%N /\ heap m !! 1%nat = Some (Note.new 1 4.0)) /\
  (heap (update 4.3 0.016 m) !! 1%nat = Some (Note.miss (Note.new 1 4.0)) /\
   nMISS (judgmentCounts (update 4.3 0.016 m)) = 0%N /\
   combo (update 4.3 0.016 m) = 1%N) /\
  (nMISS (judgmentCounts (checkAutoMiss 4.3 m)) = 1%N /\
   combo (checkAutoMiss 4.3 m) = 0%N) /\
  (forall currentTime deltaTime m0,
      score (update currentTime deltaTime m0) = score m0 /\
      combo (update currentTime deltaTime m0) = combo m0 /\
      maxCombo (update currentTime deltaTime m0) = maxCombo m0 /\
      judgmentCounts (update currentTime deltaTime m0) = judgmentCounts m0).
Proof.
  cbv zeta. split; [|split; [|split]].
  - split; reflexivity.
  - repeat split; reflexivity.
  - split; reflexivity.
  - apply update_keeps_stats.
Qed.

End LifecycleClaims.

(** ** References stay valid *)

Section WellFormed.
Import NoteManager.

Lemma wf_new : wf new.
Proof. split; constructor. Qed.

Lemma wf_loadChart (input : list NoteData) (m : t) : wf m -> wf (loadChart input m).
Proof. intros H. exact H. Qed.

Lemma wf_addJudgment (j : Judgment) (m : t) : wf m -> wf (addJudgment j m).
Proof.
  intros H. destruct j; unfold addJudgment; simpl; try exact H;
    match goal with |- context [if ?b then _ else _] => destruct b end; exact H.
Qed.

Lemma wf_set_heap (h : list Note.t) (m : t) :
  length h = length (heap m) -> wf m -> wf (set_heap h m).
Proof. intros E (H1 & H2). unfold wf. simpl. rewrite E. now split. Qed.

Lemma wf_spawnNotes (currentTime : Q) (m : t) : wf m -> wf (spawnNotes currentTime m).
Proof.
  intros (H1 & H2). rewrite spawnNotes_spec. unfold wf. simpl.
  rewrite length_app, length_map.
  assert (Hold : forall l, Forall (fun ref => (ref < length (heap m))%nat) l ->
                 forall k, Forall (fun ref => (ref < length (heap m) + k)%nat) l).
  { intros l Hl k. eapply Forall_impl; [exact Hl|]. simpl. intros; lia. }
  assert (Hnew : forall k, Forall (fun ref => (ref < length (heap m) + k)%nat)
                                  (seq (length (heap m)) k)).
  { intros k. apply List.Forall_forall. intros ref Hin. apply in_seq in Hin. lia. }
  split; apply Forall_app; split; auto.
Qed.

Lemma wf_autoMissStep (currentTime : Q) (m : t) (ref : nat) :
  wf m -> wf (autoMissStep currentTime m ref).
Proof.
  intros H. unfold autoMissStep. destruct (heap m !! ref) as [note|]; [|exact H].
  destruct (negb _ && negb _); [|exact H].
  destruct (Qltb _ _); [|exact H].
  apply wf_addJudgment, wf_set_heap; [apply length_alter|exact H].
Qed.

Lemma autoMissStep_activeNotes (currentTime : Q) (m : t) (ref : nat) :
  activeNotes (autoMissStep currentTime m ref) = activeNotes m.
Proof.
  unfold autoMissStep. destruct (heap m !! ref) as [note|]; [|reflexivity].
  destruct (negb _ && negb _); [|reflexivity].
  destruct (Qltb _ _); reflexivity.
Qed.

Lemma wf_checkAutoMiss (currentTime : Q) (m : t) :
  wf m -> wf (checkAutoMiss currentTime m).
Proof.
  unfold checkAutoMiss. generalize (activeNotes m). intros l. revert m.
  induction l as [|x l IH]; intros m H; simpl; [exact H|].
  apply IH, wf_autoMissStep, H.
Qed.

Lemma forEach_update_length (currentTime deltaTime : Q) (refs : list nat)
    (h : list Note.t) :
  length (fold_left (fun h ref => alter (Note.update currentTime deltaTime) ref h)
                    refs h) = length h.
Proof.
  revert h. induction refs as [|x refs IH]; intros h; simpl; [reflexivity|].
  rewrite IH. apply length_alter.
Qed.

Lemma wf_update (currentTime deltaTime : Q) (m : t) :
  wf m -> wf (update currentTime deltaTime m).
Proof.
  intros H. rewrite update_spec. cbv zeta.
  apply (wf_spawnNotes currentTime) in H. destruct H as (H1 & H2).
  unfold wf. simpl. rewrite forEach_update_length. split; [exact H1|].
  apply List.Forall_forall. intros ref Hin. apply filter_In in Hin as (Hin & _).
  rewrite List.Forall_forall in H2. now apply H2.
Qed.

Lemma wf_hit (track : Z) (currentTime : Q) (m : t) :
  wf m -> wf (snd (hit track currentTime m)).
Proof.
  intros H. unfold hit.
  destruct (closest track currentTime m) as [ref|]; [|exact H].
  destruct (heap m !! ref) as [note|]; [|exact H].
  destruct (Note.judge currentTime note) as [[j|] note']; simpl.
  - apply wf_addJudgment, wf_set_heap; [apply length_insert|exact H].
  - apply wf_set_heap; [apply length_insert|exact H].
Qed.

(** In a well-formed manager every active reference has its note: the
    [None] branches of [autoMissStep], [isPending] and [closestStep] are
    never taken. *)
Lemma wf_lookup (m : t) (ref : nat) :
  wf m -> In ref (activeNotes m) -> exists note, heap m !! ref = Some note.
Proof.
  intros (_ & H) Hin. rewrite List.Forall_forall in H.
  destruct (lookup_lt_is_Some_2 (heap m) ref (H _ Hin)) as (note & Hn).
  now exists note.
Qed.

End WellFormed.

(** ** [toFixed] on sample values *)

Example toFixed_90 : toFixed 2 90 = "90.00"%string.
Proof. reflexivity. Qed.

Example toFixed_third : toFixed 2 (100 / 3) = "33.33"%string.
Proof. reflexivity. Qed.

Example toFixed_tie : toFixed 2 3.125 = "3.13"%string.
Proof. reflexivity. Qed.

Example toFixed_small : toFixed 2 0.004 = "0.00"%string.
Proof. reflexivity. Qed.

Example toFixed_100 : toFixed 2 100 = "100.00"%string.
Proof. reflexivity. Qed.

Example toFixed_negative : toFixed 2 (- 1.5) = "-1.50"%string.
Proof. reflexivity. Qed.

(** ** The numeral [toFixed] writes reads back as the rounded value *)

Section FixedNumerals.

Lemma substring_split (s : string) (i : nat) :
  (i <= String.length s)%nat ->
  (substring 0 i s ++ substring i (String.length s - i) s)%string = s.
Proof.
  revert i. induction s as [|c s IH]; intros [|i] H; simpl in *; try lia.
  - reflexivity.
  - f_equal. clear IH H. induction s as [|c' s IH]; simpl; [reflexivity|].
    now rewrite IH.
  - f_equal. apply IH. lia.
Qed.

Lemma substring_length (s : string) (i j : nat) :
  (i + j <= String.length s)%nat -> String.length (substring i j s) = j.
Proof.
  revert i j. induction s as [|c s IH]; intros [|i] [|j] H; simpl in *;
    try lia; try reflexivity.
  - f_equal. apply (IH 0%nat). lia.
  - apply IH. lia.
  - apply IH. lia.
Qed.

Lemma append_length (a b : string) :
  String.length (a ++ b) = (String.length a + String.length b)%nat.
Proof. induction a as [|c a IH]; simpl; [reflexivity|now rewrite IH]. Qed.

Lemma zeros_length (k : nat) : String.length (zeros k) = k.
Proof. induction k as [|k IH]; simpl; [reflexivity|now rewrite IH]. Qed.

Lemma nopoint_append (a b : string) : nopoint a -> nopoint b -> nopoint (a ++ b).
Proof. induction a as [|c a IH]; simpl; [auto|]. intros (Hc & Ha) Hb. auto. Qed.

Lemma nopoint_substring (s : string) (i j : nat) :
  nopoint s -> nopoint (substring i j s).
Proof.
  revert i j. induction s as [|c s IH]; intros [|i] [|j]; simpl; auto.
  intros (Hc & Hs). split; [exact Hc|]. now apply IH.
  all: intros (Hc & Hs); now apply IH.
Qed.

Lemma nopoint_zeros (k : nat) : nopoint (zeros k).
Proof. induction k as [|k IH]; simpl; auto. Qed.

Lemma nopoint_uint (d : Decimal.uint) : nopoint (NilEmpty.string_of_uint d).
Proof. induction d; simpl; auto. Qed.

Lemma unpoint_append (a b : string) :
  nopoint a ->
  unpoint (a ++ String "." b) = ((a ++ b)%string, Some (String.length b)).
Proof.
  induction a as [|c a IH]; simpl; [reflexivity|].
  intros (Hc & Ha). now rewrite Hc, IH.
Qed.

Lemma zeros_leading (k : nat) (d : Decimal.uint) :
  (zeros k ++ NilEmpty.string_of_uint d)%string
  = NilEmpty.string_of_uint (leading k d).
Proof. induction k as [|k IH]; simpl; [reflexivity|now rewrite IH]. Qed.

Lemma of_uint_leading (k : nat) (d : Decimal.uint) :
  N.of_uint (leading k d) = N.of_uint d.
Proof. induction k as [|k IH]; simpl; [reflexivity|exact IH]. Qed.

(** The numeral written for [n] with [f + 1] fractional digits reads back
    as [n] over [10^(f+1)]. *)
Lemma readFixed_placePoint (f : nat) (n : N) :
  readFixed (placePoint (S f) (digits n)) = Some (n, S f).
Proof.
  unfold placePoint, digits.
  set (j := (S (S f) - String.length (NilEmpty.string_of_uint (N.to_uint n)))%nat).
  rewrite zeros_leading. set (u := leading j (N.to_uint n)).
  assert (Hk : (S (S f) <= String.length (NilEmpty.string_of_uint u))%nat).
  { unfold u. rewrite <- zeros_leading, append_length, zeros_length. lia. }
  set (m := NilEmpty.string_of_uint u) in *.
  change (("." ++ substring (String.length m - S f) (S f) m)%string)
    with (String "." (substring (String.length m - S f) (S f) m)).
  unfold readFixed. rewrite unpoint_append
    by (apply nopoint_substring, nopoint_uint).
  rewrite substring_length by lia.
  pose proof (substring_split m (String.length m - S f)) as Hsplit.
  replace (String.length m - (String.length m - S f))%nat with (S f)
    in Hsplit by lia.
  rewrite Hsplit by lia.
  unfold m. rewrite NilEmpty.usu. simpl.
  unfold u. rewrite of_uint_leading, DecimalN.Unsigned.of_to. reflexivity.
Qed.

End FixedNumerals.

(** ** Accuracy *)

Section AccuracyFacts.
Import NoteManager.

Lemma ofN_add (a b : N) : ofN (a + b) == ofN a + ofN b.
Proof. unfold ofN. now rewrite N2Z.inj_add, inject_Z_plus. Qed.


Lemma ofN_nonneg (a : N) : 0 <= ofN a.
Proof. unfold ofN. rewrite <- (Zle_Qle 0). lia. Qed.

Lemma ofN_pos (a : N) : a <> 0%N -> 0 < ofN a.
Proof. intros H. unfold ofN. rewrite <- (Zlt_Qlt 0). lia. Qed.

Lemma total_sum (m : t) :
  total m = (nPERFECT (judgmentCounts m) + nGREAT (judgmentCounts m)
             + nGOOD (judgmentCounts m) + nMISS (judgmentCounts m))%N.
Proof. reflexivity. Qed.


Lemma accuracyFormula_range (c : Counts) :
  (nPERFECT c + nGREAT c + nGOOD c + nMISS c)%N <> 0%N ->
  0 <= accuracyFormula c /\ accuracyFormula c <= 100.
Proof.
  intros Ht. unfold accuracyFormula.
  set (T := ofN (nPERFECT c + nGREAT c + nGOOD c + nMISS c)).
  set (W := 100 * ofN (nPERFECT c) + 80 * ofN (nGREAT c) + 50 * ofN (nGOOD c)).
  assert (HT : 0 < T) by (apply ofN_pos; exact Ht).
  assert (HW : 0 <= W).
  { unfold W. pose proof (ofN_nonneg (nPERFECT c)).
    pose proof (ofN_nonneg (nGREAT c)). pose proof (ofN_nonneg (nGOOD c)). lra. }
  assert (HWT : W <= 100 * T).
  { unfold W, T. rewrite !ofN_add. pose proof (ofN_nonneg (nPERFECT c)).
    pose proof (ofN_nonneg (nGREAT c)). pose proof (ofN_nonneg (nGOOD c)).
    pose proof (ofN_nonneg (nMISS c)). lra. }
  assert (E : W / (T * 100) * 100 == W / T) by (field; lra).
  rewrite E. split.
  - apply Qle_shift_div_l; [exact HT|lra].
  - apply Qle_shift_div_r; [exact HT|lra].
Qed.

Lemma roundHalfUp_comp (x y : Q) : x == y -> roundHalfUp x = roundHalfUp y.
Proof. intros H. unfold roundHalfUp. now rewrite H. Qed.

Lemma roundHalfUp_near (x : Q) :
  Qabs (inject_Z (roundHalfUp x) - x) <= 1 # 2.
Proof.
  unfold roundHalfUp.
  pose proof (Qfloor_le (x + (1 # 2))) as Hlo.
  pose proof (Qlt_floor (x + (1 # 2))) as Hhi.
  rewrite inject_Z_plus in Hhi. change (inject_Z 1) with 1 in Hhi.
  apply Qabs_Qle_condition. split; lra.
Qed.

Lemma toFixed_nonneg (f : nat) (x y : Q) :
  0 <= x -> x == y ->
  toFixed f x
  = placePoint f (digits (Z.to_N (roundHalfUp (y * inject_Z (pow10 f))))).
Proof.
  intros Hx Hxy. unfold toFixed.
  assert (E : Qltb x 0 = false) by now apply Qltb_ge.
  rewrite E. simpl.
  now rewrite (roundHalfUp_comp (x * inject_Z (pow10 f)) (y * inject_Z (pow10 f)))
    by now rewrite Hxy.
Qed.

End AccuracyFacts.

Section AccuracyClaims.
Import NoteManager.







End AccuracyClaims.

(** * Further properties of the code *)

(** ** The clock: guards, reset, seeking, beats *)

#[local] Arguments Qfloor : simpl never.

Section ConductorMore.
Import Conductor.

Lemma start_running (performance_now Date_now : Q) (c : t) :
  isRunning (start performance_now Date_now c) = true.
Proof. unfold start. destruct (isRunning c) eqn:E; [exact E|reflexivity]. Qed.

(** X1: a second [start()] on a started clock and a second [pause()] on a
    paused clock change nothing: the anchor and offset of the first start,
    and the time saved by the first pause, are kept. *)
Theorem X1_double_start_double_pause
    (now1 date1 now2 date2 : Q) (c : t) :
  start now2 date2 (start now1 date1 c) = start now1 date1 c /\
  pause (pause c) = pause c.
Proof.
  split.
  - unfold start at 1. now rewrite start_running.
  - unfold pause at 1. now rewrite pause_not_running.
Qed.




(** X4: for a tempo between [2^-500] and [2^500] and a time between 0 and
    [2^500], where no quotient overflows, [setBPM] changes the tempo and
    leaves the time alone, the beat lasts [getBeatDuration()], the rounded
    [60 / bpm], which is positive, and [getCurrentBeat()] is the index of
    the beat that contains the current time up to the rounding of the
    quotient: for the time [t], beat [k] starts no later than
    [t * (1 + 2^-53)] and ends after [t * (1 - 2^-53)].  The bracket
    without the two factors can fail in the last place: at 150 beats per
    minute and 6.8 s the beat is 17 although 17 beat durations are more
    than the time. *)
Theorem X4_current_beat_brackets_time (b : Q) (c : t) :
  pow2 (-500) <= b -> b <= pow2 500 ->
  0 <= currentTime c -> currentTime c <= pow2 500 ->
  let c' := setBPM b c in
  let D := getBeatDuration c' in
  let beat := inject_Z (getCurrentBeat c') in
  getBPM c' = b /\
  getCurrentTime c' = getCurrentTime c /\
  0 < D /\ 0 <= beat /\
  beat * D <= getCurrentTime c' * (1 + pow2 (-53)) /\
  getCurrentTime c' * (1 - pow2 (-53)) < (beat + 1) * D.
Proof.
  intros Hmin Hmax HT _. cbv zeta.
  assert (Hb : 0 < b) by (pose proof (pow2_pos (-500)); lra).
  unfold getBPM, getCurrentTime, getCurrentBeat, getBeatDuration, setBPM.
  cbn [bpm currentTime].
  set (T := currentTime c) in *. set (D := round64 (60 / b)).
  assert (Eu : pow2 (-53) == 1 # 9007199254740992) by reflexivity.
  assert (HD : 0 < D).
  { apply round64_pos, Qle_shift_div_l; [exact Hb|].
    apply Qle_trans with (pow2 (-1074) * pow2 500).
    - apply Qmult_le_l; [apply pow2_pos|exact Hmax].
    - vm_compute. discriminate. }
  set (x := T / D).
  assert (Hx0 : 0 <= x) by (unfold x; apply Qle_shift_div_l; lra).
  assert (E : T == x * D) by (unfold x; field; lra).
  pose proof (round64_nonneg x Hx0) as Hq0.
  pose proof (Qfloor_le (round64 x)) as Hlo.
  pose proof (Qlt_floor (round64 x)) as Hhi.
  rewrite inject_Z_plus in Hhi. change (inject_Z 1) with 1 in Hhi.
  assert (Hk : (0 <= Qfloor (round64 x))%Z)
    by (change 0%Z with (Qfloor 0); now apply Qfloor_resp_le).
  split; [reflexivity|]. split; [reflexivity|]. split; [exact HD|].
  split; [change 0 with (inject_Z 0); now rewrite <- Zle_Qle|].
  set (k := inject_Z (Qfloor (round64 x))) in *.
  rewrite Eu.
  destruct (Qlt_le_dec x (pow2 (-1022))) as [Hs|Hn].
  - assert (Hq1 : round64 x < 1).
    { apply Qle_lt_trans with (round64 (pow2 (-1022)));
        [apply round64_mono, Qlt_le_weak, Hs|vm_compute; reflexivity]. }
    assert (Hx1 : x < 1)
      by (apply Qlt_trans with (1 := Hs); vm_compute; reflexivity).
    assert (Ek : k == 0).
    { unfold k in *.
      assert (Qfloor (round64 x) < 1)%Z
        by (rewrite Zlt_Qlt; change (inject_Z 1) with 1; lra).
      replace (Qfloor (round64 x)) with 0%Z by lia. reflexivity. }
    assert (HTD : T < D).
    { rewrite E. rewrite <- (Qmult_1_l D) at 2.
      now apply Qmult_lt_compat_r. }
    rewrite Ek. split; lra.
  - assert (Ax : Qabs x == x) by (apply Qabs_pos; lra).
    pose proof (round64_error x) as Herr. rewrite Ax, Eu in Herr.
    apply Qabs_Qle_condition in Herr; [|lra].
    split.
    + apply Qle_trans with (x * (1 + (1 # 9007199254740992)) * D).
      * apply Qmult_le_compat_r; lra.
      * rewrite E. apply Qle_lteq. right. ring.
    + apply Qle_lt_trans with (x * (1 - (1 # 9007199254740992)) * D).
      * rewrite E. apply Qle_lteq. right. ring.
      * apply Qmult_lt_compat_r; lra.
Qed.

Lemma X4_current_beat_brackets_time_witness :
  let c := seekTo 0 (round64 6.8) new in
  pow2 (-500) <= 150 /\ 150 <= pow2 500 /\
  0 <= currentTime c /\ currentTime c <= pow2 500 /\
  getCurrentBeat (setBPM 150 c) = 17%Z /\
  ~ inject_Z 17 * getBeatDuration (setBPM 150 c) <= getCurrentTime c /\
  inject_Z 17 * getBeatDuration (setBPM 150 c)
  <= getCurrentTime c * (1 + pow2 (-53)).
Proof.
  cbv zeta.
  assert (H0 : pow2 (-500) <= 150) by (vm_compute; discriminate).
  assert (H1 : 150 <= pow2 500) by (vm_compute; discriminate).
  assert (H2 : 0 <= currentTime (seekTo 0 (round64 6.8) new))
    by (vm_compute; discriminate).
  assert (H3 : currentTime (seekTo 0 (round64 6.8) new) <= pow2 500)
    by (vm_compute; discriminate).
  pose proof (X4_current_beat_brackets_time 150
                (seekTo 0 (round64 6.8) new) H0 H1 H2 H3)
    as (_ & _ & _ & _ & H & _).
  split; [exact H0|]. split; [exact H1|]. split; [exact H2|].
  split; [exact H3|].
  split; [vm_compute; reflexivity|].
  split; [vm_compute; intros H'; now apply H'|exact H].
Defined.

(** X5: for a time that is not negative, [getFormattedTime()] is a numeral
    with two decimals that reads back as [n / 100], [n] being the integer
    nearest to a hundred times the current time: the display is off by at
    most half a hundredth of a second. *)
Theorem X5_formatted_time_reads_back (c : t) :
  0 <= currentTime c ->
  exists n : N,
    readFixed (getFormattedTime c) = Some (n, 2%nat) /\
    Qabs (inject_Z (Z.of_N n) - currentTime c * 100) <= 1 # 2.
Proof.
  intros H. unfold getFormattedTime.
  rewrite (toFixed_nonneg 2 _ _ H (Qeq_refl _)).
  change (inject_Z (pow10 2)) with 100.
  exists (Z.to_N (roundHalfUp (currentTime c * 100))).
  split; [apply readFixed_placePoint|].
  rewrite Z2N.id; [apply roundHalfUp_near|].
  unfold roundHalfUp. change 0%Z with (Qfloor 0). apply Qfloor_resp_le. lra.
Qed.

Lemma X5_formatted_time_reads_back_witness :
  0 <= currentTime (update 3345 (start 1000 0 new)) /\
  getFormattedTime (update 3345 (start 1000 0 new)) = "2.35"%string /\
  exists n : N,
    readFixed (getFormattedTime (update 3345 (start 1000 0 new)))
    = Some (n, 2%nat).
Proof.
  assert (H : 0 <= currentTime (update 3345 (start 1000 0 new)))
    by (vm_compute; discriminate).
  destruct (X5_formatted_time_reads_back _ H) as (n & Hn & _).
  split; [exact H|]. split; [reflexivity|]. now exists n.
Defined.

End ConductorMore.

(** ** The manager over any sequence of calls *)

Section ManagerInvariants.
Import NoteManager.

Lemma runs_invariant (P : t -> Prop) :
  (forall c m, P m -> P (run c m)) ->
  forall cs m, P m -> P (runs cs m).
Proof.
  intros Hstep cs. unfold runs.
  induction cs as [|c cs IH]; intros m H; simpl; [exact H|].
  apply IH, Hstep, H.
Qed.

Lemma runs_app (cs1 cs2 : list call) (m : t) :
  runs (cs1 ++ cs2) m = runs cs2 (runs cs1 m).
Proof. unfold runs. apply fold_left_app. Qed.

Lemma statsInv_same (m m' : t) : stats4 m' = stats4 m -> statsInv m -> statsInv m'.
Proof.
  unfold stats4, statsInv, weighted. intros [= Hs Hc Hm Hj].
  now rewrite Hs, Hc, Hm, Hj.
Qed.

Lemma statsInv_addJudgment (j : Judgment) (m : t) :
  statsInv m -> statsInv (addJudgment j m).
Proof.
  unfold statsInv, weighted. intros (Hs & Hc & Hm).
  destruct j; unfold addJudgment; simpl;
    try (destruct (N.ltb_spec (maxCombo m) (combo m + 1)); simpl);
    rewrite Hs; repeat split; lia.
Qed.

Lemma hit_effect (track : Z) (currentTime : Q) (m : t) :
  snd (hit track currentTime m) = m \/
  exists ref note j,
    closest track currentTime m = Some ref /\
    heap m !! ref = Some note /\ Note.pending note = true /\
    Note.track note = track /\
    fst (hit track currentTime m) = Some j /\
    snd (hit track currentTime m)
    = addJudgment j (set_heap (<[ref := Note.hit j note]> (heap m)) m).
Proof.
  destruct (closest track currentTime m) as [ref|] eqn:Hc.
  - right. destruct (hit_selected _ _ _ _ Hc) as (note & j & Hcand & _ & _ & Hhit).
    destruct Hcand as (_ & Hl & Ht & Hh & Hm & _).
    exists ref, note, j. rewrite Hhit. simpl.
    repeat split; try assumption. unfold Note.pending. now rewrite Hh, Hm.
  - left. unfold hit. now rewrite Hc.
Qed.

Lemma autoMissStep_effect (currentTime : Q) (m : t) (ref : nat) :
  autoMissStep currentTime m ref = m \/
  exists note,
    heap m !! ref = Some note /\ Note.pending note = true /\
    autoMissStep currentTime m ref
    = addJudgment MISS (set_heap (alter Note.miss ref (heap m)) m).
Proof.
  unfold autoMissStep. destruct (heap m !! ref) as [note|]; [|now left].
  destruct (negb (Note.isHit note) && negb (Note.isMissed note)) eqn:Hp;
    [|now left].
  destruct (Qltb _ _); [|now left]. right. now exists note.
Qed.

(** A property kept by [set_heap] and by [addJudgment] after one note was
    resolved is kept by [checkAutoMiss]. *)
Lemma checkAutoMiss_invariant (P : t -> Prop) (currentTime : Q) :
  (forall m ref, P m -> P (autoMissStep currentTime m ref)) ->
  forall m, P m -> P (checkAutoMiss currentTime m).
Proof.
  intros Hstep m. unfold checkAutoMiss. generalize (activeNotes m). intros l.
  revert m. induction l as [|x l IH]; intros m H; simpl; [exact H|].
  apply IH, Hstep, H.
Qed.

Lemma statsInv_run (c : call) (m : t) : statsInv m -> statsInv (run c m).
Proof.
  intros H. destruct c as [chart|ct dt|ct|ct|track ct|]; simpl.
  - exact H.
  - apply (statsInv_same m); [|exact H].
    destruct (update_keeps_stats ct dt m) as (H1 & H2 & H3 & H4).
    unfold stats4. now rewrite H1, H2, H3, H4.
  - apply (statsInv_same m); [|exact H]. now rewrite spawnNotes_spec.
  - apply checkAutoMiss_invariant; [|exact H]. intros m0 ref H0.
    destruct (autoMissStep_effect ct m0 ref) as [->|(note & _ & _ & ->)];
      [exact H0|].
    apply statsInv_addJudgment. now apply (statsInv_same m0).
  - destruct (hit_effect track ct m) as [->|(ref & note & j & _ & _ & _ & _ & _ & ->)];
      [exact H|].
    apply statsInv_addJudgment. now apply (statsInv_same m).
  - unfold statsInv, weighted. simpl. repeat split; lia.
Qed.

(** X6: whatever calls the manager has received since its construction
    ([loadChart], [update], [spawnNotes], [checkAutoMiss], [hit], [reset],
    in any order), [getStats()] reports a score equal to
    [100*PERFECT + 80*GREAT + 50*GOOD] of its counts, a combo that is at
    most maxCombo, and a maxCombo that is at most hitNotes. *)
Theorem X6_stats_consistent (cs : list call) :
  let s := getStats (runs cs new) in
  stats_score s
  = (100 * nPERFECT (stats_judgmentCounts s)
     + 80 * nGREAT (stats_judgmentCounts s)
     + 50 * nGOOD (stats_judgmentCounts s))%N /\
  (stats_combo s <= stats_maxCombo s)%N /\
  (stats_maxCombo s <= hitNotes s)%N /\
  totalNotes s = length (chart (runs cs new)).
Proof.
  cbv zeta.
  assert (H : statsInv (runs cs new)).
  { apply runs_invariant; [apply statsInv_run|].
    unfold statsInv, weighted. simpl. repeat split; lia. }
  destruct H as (Hs & Hc & Hm). unfold getStats. simpl.
  repeat split; try assumption. rewrite Hs. unfold weighted. lia.
Qed.

Lemma wf_reset (m : t) : wf (reset m).
Proof. split; constructor. Qed.

Lemma wf_run (c : call) (m : t) : wf m -> wf (run c m).
Proof.
  intros H. destruct c; simpl.
  - now apply wf_loadChart.
  - now apply wf_update.
  - now apply wf_spawnNotes.
  - now apply wf_checkAutoMiss.
  - now apply wf_hit.
  - apply wf_reset.
Qed.

Lemma addJudgment_arrays (j : Judgment) (m : t) :
  notes (addJudgment j m) = notes m /\
  activeNotes (addJudgment j m) = activeNotes m.
Proof.
  destruct j; unfold addJudgment; simpl; auto;
    destruct (N.ltb _ _); auto.
Qed.

Lemma hit_arrays (track : Z) (currentTime : Q) (m : t) :
  notes (snd (hit track currentTime m)) = notes m /\
  activeNotes (snd (hit track currentTime m)) = activeNotes m.
Proof.
  destruct (hit_effect track currentTime m)
    as [->|(ref & note & j & _ & _ & _ & _ & _ & ->)]; [auto|].
  destruct (addJudgment_arrays j
              (set_heap (<[ref := Note.hit j note]> (heap m)) m)) as (-> & ->).
  auto.
Qed.

Lemma checkAutoMiss_arrays (currentTime : Q) (m : t) :
  notes (checkAutoMiss currentTime m) = notes m /\
  activeNotes (checkAutoMiss currentTime m) = activeNotes m.
Proof.
  apply (checkAutoMiss_invariant
           (fun m' => notes m' = notes m /\ activeNotes m' = activeNotes m));
    [|auto].
  intros m0 ref (H1 & H2).
  destruct (autoMissStep_effect currentTime m0 ref) as [->|(note & _ & _ & ->)];
    [auto|].
  destruct (addJudgment_arrays MISS
              (set_heap (alter Note.miss ref (heap m0)) m0)) as (-> & ->).
  auto.
Qed.

Lemma refsInv_run (c : call) (m : t) : refsInv m -> refsInv (run c m).
Proof.
  intros (Hwf & Hn & Ha & Hincl).
  split; [now apply wf_run|].
  destruct c as [chart|ct dt|ct|ct|track ct|]; simpl.
  - auto.
  - rewrite update_spec. cbv zeta. simpl. rewrite spawnNotes_spec. simpl.
    destruct Hwf as (Hw1 & Hw2). rewrite List.Forall_forall in Hw1, Hw2.
    assert (Hfresh : forall l, (forall r, In r l -> (r < length (heap m))%nat) ->
              forall a, In a l -> ~ In a (seq (length (heap m))
                (length (due (round64 (ct + spawnTime m)) (drop (chartIndex m) (chart m)))))).
    { intros l Hl a Hin Hs. apply in_seq in Hs. specialize (Hl _ Hin). lia. }
    split; [apply List.NoDup_app;
            [exact Hn|apply seq_NoDup|apply (Hfresh _ Hw1)]|].
    split; [apply List.NoDup_filter, List.NoDup_app;
            [exact Ha|apply seq_NoDup|apply (Hfresh _ Hw2)]|].
    intros ref Hin. apply filter_In in Hin as (Hin & _).
    apply in_app_or in Hin as [Hin|Hin]; apply in_or_app; auto.
  - rewrite spawnNotes_spec. simpl.
    destruct Hwf as (Hw1 & Hw2). rewrite List.Forall_forall in Hw1, Hw2.
    assert (Hfresh : forall l, (forall r, In r l -> (r < length (heap m))%nat) ->
              forall a, In a l -> ~ In a (seq (length (heap m))
                (length (due (round64 (ct + spawnTime m)) (drop (chartIndex m) (chart m)))))).
    { intros l Hl a Hin Hs. apply in_seq in Hs. specialize (Hl _ Hin). lia. }
    split; [apply List.NoDup_app;
            [exact Hn|apply seq_NoDup|apply (Hfresh _ Hw1)]|].
    split; [apply List.NoDup_app;
            [exact Ha|apply seq_NoDup|apply (Hfresh _ Hw2)]|].
    intros ref Hin. apply in_app_or in Hin as [Hin|Hin]; apply in_or_app; auto.
  - destruct (checkAutoMiss_arrays ct m) as (-> & ->). auto.
  - destruct (hit_arrays track ct m) as (-> & ->). auto.
  - repeat split; try constructor. intros ref [].
Qed.

(** X7: after any sequence of calls every reference in [notes] and in
    [activeNotes] points to a note of the store, neither array holds a
    reference twice, and every active note is among the spawned ones. *)
Theorem X7_references_valid_and_distinct (cs : list call) :
  let m := runs cs new in
  (forall ref, In ref (activeNotes m) -> exists note, heap m !! ref = Some note) /\
  (forall ref, In ref (notes m) -> exists note, heap m !! ref = Some note) /\
  List.NoDup (notes m) /\ List.NoDup (activeNotes m) /\
  (forall ref, In ref (activeNotes m) -> In ref (notes m)).
Proof.
  cbv zeta.
  assert (H : refsInv (runs cs new)).
  { apply runs_invariant; [apply refsInv_run|].
    repeat split; try constructor. intros ref []. }
  destruct H as (Hwf & Hn & Ha & Hincl).
  split; [intros ref Hin; now apply wf_lookup|].
  split; [|auto].
  intros ref Hin. destruct Hwf as (Hw & _). rewrite List.Forall_forall in Hw.
  destruct (lookup_lt_is_Some_2 (heap (runs cs new)) ref (Hw _ Hin)) as (n & Hn').
  now exists n.
Qed.

(** *** The life of a note *)

Lemma evolves_refl (n : Note.t) : evolves n n.
Proof. now repeat split. Qed.

Lemma evolves_trans (n1 n2 n3 : Note.t) :
  evolves n1 n2 -> evolves n2 n3 -> evolves n1 n3.
Proof.
  intros (Ht & Hh & Hp) (Ht' & Hh' & Hp').
  split; [congruence|]. split; [congruence|].
  intros H. specialize (Hp H). subst n2. auto.
Qed.

Lemma evolves_update (currentTime deltaTime : Q) (n : Note.t) :
  evolves n (Note.update currentTime deltaTime n).
Proof.
  unfold Note.update, evolves, Note.pending.
  destruct (Note.isHit n), (Note.isMissed n); simpl;
    try (now repeat split).
  destruct (Qltb _ _); simpl; repeat split; discriminate.
Qed.

Lemma evolves_hit (j : Judgment) (n : Note.t) :
  Note.pending n = true -> evolves n (Note.hit j n).
Proof. intros H. repeat split. congruence. Qed.

Lemma evolves_miss (n : Note.t) :
  Note.pending n = true -> evolves n (Note.miss n).
Proof. intros H. repeat split. congruence. Qed.

Lemma forEach_evolves (f : Note.t -> Note.t) (refs : list nat) :
  (forall n, evolves n (f n)) ->
  forall (h : list Note.t) (ref : nat) (n : Note.t),
    h !! ref = Some n ->
    exists n', fold_left (fun h r => alter f r h) refs h !! ref = Some n' /\
               evolves n n'.
Proof.
  intros Hf. induction refs as [|x refs IH]; intros h ref n Hl; simpl.
  - exists n. split; [exact Hl|apply evolves_refl].
  - destruct (Nat.eq_dec x ref) as [->|Hne].
    + destruct (IH (alter f ref h) ref (f n)) as (n' & Hn' & He).
      { rewrite list_lookup_alter_eq, Hl. reflexivity. }
      exists n'. split; [exact Hn'|]. eapply evolves_trans; [apply Hf|exact He].
    + apply IH. now rewrite list_lookup_alter_ne.
Qed.

Lemma autoMissStep_evolves (currentTime : Q) (m : t) (r ref : nat) (n : Note.t) :
  heap m !! ref = Some n ->
  exists n', heap (autoMissStep currentTime m r) !! ref = Some n' /\ evolves n n'.
Proof.
  intros Hl.
  destruct (autoMissStep_effect currentTime m r) as [->|(note & Hr & Hp & ->)].
  - exists n. split; [exact Hl|apply evolves_refl].
  - rewrite addJudgment_heap. simpl.
    destruct (Nat.eq_dec r ref) as [->|Hne].
    + rewrite list_lookup_alter_eq, Hl. simpl. exists (Note.miss n).
      split; [reflexivity|]. apply evolves_miss. congruence.
    + rewrite list_lookup_alter_ne by exact Hne.
      exists n. split; [exact Hl|apply evolves_refl].
Qed.

Lemma checkAutoMiss_evolves (currentTime : Q) (m : t) (ref : nat) (n : Note.t) :
  heap m !! ref = Some n ->
  exists n', heap (checkAutoMiss currentTime m) !! ref = Some n' /\ evolves n n'.
Proof.
  intros Hl.
  apply (checkAutoMiss_invariant
           (fun m' => exists n', heap m' !! ref = Some n' /\ evolves n n')).
  - intros m0 r (n0 & Hn0 & He).
    destruct (autoMissStep_evolves currentTime m0 r ref n0 Hn0) as (n' & Hn' & He').
    exists n'. split; [exact Hn'|]. eapply evolves_trans; eassumption.
  - exists n. split; [exact Hl|apply evolves_refl].
Qed.

Lemma hit_evolves (track : Z) (currentTime : Q) (m : t) (ref : nat) (n : Note.t) :
  heap m !! ref = Some n ->
  exists n', heap (snd (hit track currentTime m)) !! ref = Some n' /\ evolves n n'.
Proof.
  intros Hl.
  destruct (hit_effect track currentTime m)
    as [->|(r & note & j & _ & Hr & Hp & _ & _ & ->)].
  - exists n. split; [exact Hl|apply evolves_refl].
  - rewrite addJudgment_heap. simpl.
    destruct (Nat.eq_dec r ref) as [->|Hne].
    + rewrite list_lookup_insert_eq by (apply (lookup_lt_Some _ _ _ Hl)).
      rewrite Hl in Hr. injection Hr as <-.
      exists (Note.hit j n). split; [reflexivity|now apply evolves_hit].
    + rewrite list_lookup_insert_ne by exact Hne.
      exists n. split; [exact Hl|apply evolves_refl].
Qed.

Lemma run_evolves (c : call) (m : t) (ref : nat) (n : Note.t) :
  heap m !! ref = Some n ->
  exists n', heap (run c m) !! ref = Some n' /\ evolves n n'.
Proof.
  intros Hl. destruct c as [chart|ct dt|ct|ct|track ct|]; simpl.
  - exists n. split; [exact Hl|apply evolves_refl].
  - rewrite update_spec. cbv zeta. simpl.
    apply forEach_evolves; [apply evolves_update|].
    rewrite spawnNotes_spec. simpl. now apply lookup_app_l_Some.
  - rewrite spawnNotes_spec. simpl. exists n.
    split; [now apply lookup_app_l_Some|apply evolves_refl].
  - now apply checkAutoMiss_evolves.
  - now apply hit_evolves.
  - exists n. split; [exact Hl|apply evolves_refl].
Qed.

Lemma runs_evolves (cs : list call) (m : t) (ref : nat) (n : Note.t) :
  heap m !! ref = Some n ->
  exists n', heap (runs cs m) !! ref = Some n' /\ evolves n n'.
Proof.
  revert m n. unfold runs.
  induction cs as [|c cs IH]; intros m n Hl; simpl.
  - exists n. split; [exact Hl|apply evolves_refl].
  - destruct (run_evolves c m ref n Hl) as (n1 & H1 & E1).
    destruct (IH _ _ H1) as (n2 & H2 & E2).
    exists n2. split; [exact H2|]. eapply evolves_trans; eassumption.
Qed.

(** X8: a note of the store stays in the store under every sequence of
    calls, at the same reference, on the same lane and with the same time;
    once it is hit or missed no call changes it again: hit and missed are
    final. *)
Theorem X8_resolved_notes_are_final
    (cs : list call) (m : t) (ref : nat) (note : Note.t) :
  heap m !! ref = Some note ->
  exists note',
    heap (runs cs m) !! ref = Some note' /\
    Note.track note' = Note.track note /\
    Note.hitTime note' = Note.hitTime note /\
    (Note.pending note = false -> note' = note).
Proof. intros H. exact (runs_evolves cs m ref note H). Qed.

Lemma X8_resolved_notes_are_final_witness :
  let m := snd (hit 0 3.0 specManager) in
  heap m !! 0%nat = Some (Note.hit PERFECT (Note.new 0 3.0)) /\
  exists note',
    heap (runs [CallUpdate 3.5 0.016; CallHit 0 3.1; CallCheckAutoMiss 9;
                CallReset; CallUpdate 1.5 0.016] m) !! 0%nat = Some note' /\
    note' = Note.hit PERFECT (Note.new 0 3.0).
Proof.
  cbv zeta.
  destruct (X8_resolved_notes_are_final
              [CallUpdate 3.5 0.016; CallHit 0 3.1; CallCheckAutoMiss 9;
               CallReset; CallUpdate 1.5 0.016]
              (snd (hit 0 3.0 specManager)) 0%nat
              (Note.hit PERFECT (Note.new 0 3.0)) eq_refl)
    as (note' & H1 & _ & _ & H2).
  split; [reflexivity|]. exists note'. split; [exact H1|exact (H2 eq_refl)].
Defined.

(** X9: once [hit] has judged a note, no later [hit], on any lane and at
    any time, after any calls in between, selects that note again: a note
    is judged at most once by presses. *)
Theorem X9_note_judged_at_most_once
    (track : Z) (currentTime : Q) (m : t) (ref : nat)
    (cs : list call) (track' : Z) (currentTime' : Q) :
  closest track currentTime m = Some ref ->
  closest track' currentTime' (runs cs (snd (hit track currentTime m)))
  <> Some ref.
Proof.
  intros Hc Hc'.
  destruct (hit_selected _ _ _ _ Hc) as (note & j & Hcand & _ & _ & Hhit).
  destruct Hcand as (_ & Hl & _).
  assert (Hl1 : heap (snd (hit track currentTime m)) !! ref
                = Some (Note.hit j note)).
  { rewrite Hhit. simpl. rewrite addJudgment_heap. simpl.
    apply list_lookup_insert_eq, (lookup_lt_Some _ _ _ Hl). }
  destruct (runs_evolves cs _ ref _ Hl1) as (n' & Hn' & _ & _ & Hfin).
  specialize (Hfin eq_refl). subst n'.
  destruct (closest_Some _ _ _ _ Hc') as (n2 & (_ & Hn2 & _ & Hh & _) & _).
  rewrite Hn' in Hn2. injection Hn2 as <-. discriminate Hh.
Qed.

Lemma X9_note_judged_at_most_once_witness :
  closest 0 3.0 specManager = Some 0%nat /\
  closest 0 3.0 (runs [] (snd (hit 0 3.0 specManager))) <> Some 0%nat /\
  fst (hit 0 3.0 (snd (hit 0 3.0 specManager))) = None.
Proof.
  split; [reflexivity|]. split; [|reflexivity].
  exact (X9_note_judged_at_most_once 0 3.0 specManager 0%nat [] 0 3.0 eq_refl).
Defined.

Lemma Forall_forEach (P : Note.t -> Prop) (f : Note.t -> Note.t)
    (refs : list nat) (h : list Note.t) :
  (forall n, P n -> P (f n)) ->
  Forall P h -> Forall P (fold_left (fun h r => alter f r h) refs h).
Proof.
  intros Hf. revert h. induction refs as [|x refs IH]; intros h H; simpl;
    [exact H|].
  apply IH. apply Forall_alter; [exact H|]. intros n _. apply Hf.
Qed.

Lemma exclusive_pending_hit (j : Judgment) (n : Note.t) :
  Note.pending n = true -> exclusive (Note.hit j n).
Proof.
  unfold Note.pending, exclusive. simpl.
  destruct (Note.isHit n), (Note.isMissed n); simpl; auto; discriminate.
Qed.

Lemma exclusive_pending_miss (n : Note.t) :
  Note.pending n = true -> exclusive (Note.miss n).
Proof.
  unfold Note.pending, exclusive. simpl.
  destruct (Note.isHit n), (Note.isMissed n); simpl; auto; discriminate.
Qed.

Lemma exclusive_update (currentTime deltaTime : Q) (n : Note.t) :
  exclusive n -> exclusive (Note.update currentTime deltaTime n).
Proof.
  unfold Note.update, exclusive.
  destruct (Note.isHit n) eqn:Eh, (Note.isMissed n) eqn:Em; simpl;
    rewrite ?Eh, ?Em; auto.
  destruct (Qltb _ _); simpl; rewrite ?Eh, ?Em; auto.
Qed.

Lemma exclusive_run (c : call) (m : t) :
  Forall exclusive (heap m) -> Forall exclusive (heap (run c m)).
Proof.
  intros H. destruct c as [chart|ct dt|ct|ct|track ct|]; simpl.
  - exact H.
  - rewrite update_spec. cbv zeta. simpl.
    apply Forall_forEach; [apply exclusive_update|].
    rewrite spawnNotes_spec. simpl. apply Forall_app. split; [exact H|].
    apply List.Forall_forall. intros n Hin. apply in_map_iff in Hin as (d & <- & _).
    reflexivity.
  - rewrite spawnNotes_spec. simpl. apply Forall_app. split; [exact H|].
    apply List.Forall_forall. intros n Hin. apply in_map_iff in Hin as (d & <- & _).
    reflexivity.
  - apply (checkAutoMiss_invariant (fun m' => Forall exclusive (heap m')));
      [|exact H].
    intros m0 r H0.
    destruct (autoMissStep_effect ct m0 r) as [->|(note & Hr & Hp & ->)];
      [exact H0|].
    rewrite addJudgment_heap. simpl. apply Forall_alter; [exact H0|].
    intros n Hn _. rewrite Hr in Hn. injection Hn as <-.
    now apply exclusive_pending_miss.
  - destruct (hit_effect track ct m)
      as [->|(r & note & j & _ & Hr & Hp & _ & _ & ->)]; [exact H|].
    rewrite addJudgment_heap. simpl. apply Forall_insert; [exact H|].
    now apply exclusive_pending_hit.
  - exact H.
Qed.

(** X10: after any sequence of calls no note of the store is both hit and
    missed: a note is pending, hit, or missed. *)
Theorem X10_never_hit_and_missed (cs : list call) :
  Forall (fun note => Note.isHit note && Note.isMissed note = false)
         (heap (runs cs new)).
Proof.
  apply (runs_invariant (fun m => Forall exclusive (heap m)));
    [apply exclusive_run|constructor].
Qed.

(** *** The active array *)

Lemma forEach_origin (f : Note.t -> Note.t) (refs : list nat)
    (h : list Note.t) (ref : nat) (n' : Note.t) :
  (forall n, evolves n (f n)) ->
  fold_left (fun h r => alter f r h) refs h !! ref = Some n' ->
  exists n, h !! ref = Some n /\ evolves n n'.
Proof.
  intros Hf Hl.
  assert (Hlen : length (fold_left (fun h r => alter f r h) refs h) = length h).
  { clear. revert h. induction refs as [|x refs IH]; intros h; simpl;
      [reflexivity|]. rewrite IH. apply length_alter. }
  apply lookup_lt_Some in Hl as Hlt. rewrite Hlen in Hlt.
  destruct (lookup_lt_is_Some_2 h ref Hlt) as (n & Hn).
  destruct (forEach_evolves f refs Hf h ref n Hn) as (n2 & Hn2 & He).
  rewrite Hl in Hn2. injection Hn2 as <-. now exists n.
Qed.

Lemma evolves_pending (n n' : Note.t) :
  evolves n n' -> Note.pending n' = true -> Note.pending n = true.
Proof.
  intros (_ & _ & H) Hp. destruct (Note.pending n) eqn:E; [reflexivity|].
  rewrite (H eq_refl) in Hp. congruence.
Qed.

Lemma activeInv_spawnNotes (currentTime : Q) (m : t) :
  wf m -> activeInv m -> activeInv (spawnNotes currentTime m).
Proof.
  intros (Hw & _) Ha ref note. rewrite spawnNotes_spec. simpl.
  rewrite List.Forall_forall in Hw.
  intros Hin Hl Hp. apply in_app_or in Hin as [Hin|Hin]; apply in_or_app;
    [left|now right].
  rewrite lookup_app_l in Hl by (apply Hw, Hin). now apply (Ha ref note).
Qed.

Lemma activeInv_run (c : call) (m : t) :
  wf m -> activeInv m -> activeInv (run c m).
Proof.
  intros Hwf Ha. destruct c as [chart|ct dt|ct|ct|track ct|]; simpl.
  - exact Ha.
  - rewrite update_spec. cbv zeta. intros ref note. simpl. intros Hin Hl Hp.
    destruct (forEach_origin _ _ _ _ _ (evolves_update ct dt) Hl)
      as (n & Hn & He).
    apply filter_In. split.
    + apply (activeInv_spawnNotes ct m Hwf Ha ref n Hin Hn).
      now apply (evolves_pending n note).
    + unfold isPending. now rewrite Hl.
  - now apply activeInv_spawnNotes.
  - apply (checkAutoMiss_invariant activeInv); [|exact Ha].
    intros m0 r H0 ref note.
    destruct (autoMissStep_effect ct m0 r) as [->|(n & Hr & Hpr & ->)];
      [apply H0|].
    destruct (addJudgment_arrays MISS
                (set_heap (alter Note.miss r (heap m0)) m0)) as (-> & ->).
    rewrite addJudgment_heap. simpl. intros Hin Hl Hp.
    destruct (Nat.eq_dec r ref) as [->|Hne].
    + rewrite list_lookup_alter_eq, Hr in Hl. simpl in Hl.
      injection Hl as <-. unfold Note.pending in Hp. simpl in Hp.
      rewrite andb_false_r in Hp. discriminate.
    + rewrite list_lookup_alter_ne in Hl by exact Hne. now apply (H0 ref note).
  - intros ref note.
    destruct (hit_effect track ct m)
      as [->|(r & n & j & _ & Hr & Hpr & _ & _ & ->)]; [apply Ha|].
    destruct (addJudgment_arrays j
                (set_heap (<[r := Note.hit j n]> (heap m)) m)) as (-> & ->).
    rewrite addJudgment_heap. simpl. intros Hin Hl Hp.
    destruct (Nat.eq_dec r ref) as [->|Hne].
    + rewrite list_lookup_insert_eq in Hl by (apply (lookup_lt_Some _ _ _ Hr)).
      injection Hl as <-. discriminate Hp.
    + rewrite list_lookup_insert_ne in Hl by exact Hne. now apply (Ha ref note).
  - intros ref note [].
Qed.

(** X11: after any sequence of calls, every note spawned since the last
    reset that is still pending is in [activeNotes]: the per-frame filter
    never drops a note that can still be hit. *)
Theorem X11_pending_notes_stay_active
    (cs : list call) (ref : nat) (note : Note.t) :
  In ref (notes (runs cs new)) ->
  heap (runs cs new) !! ref = Some note ->
  Note.pending note = true ->
  In ref (activeNotes (runs cs new)).
Proof.
  assert (H : wf (runs cs new) /\ activeInv (runs cs new)).
  { apply (runs_invariant (fun m => wf m /\ activeInv m)).
    - intros c m (Hw & Ha). split; [now apply wf_run|now apply activeInv_run].
    - split; [apply wf_new|]. intros r n []. }
  destruct H as (_ & Ha). apply Ha.
Qed.

Lemma X11_pending_notes_stay_active_witness :
  let cs := [CallLoadChart specChart; CallUpdate 1.5 0.016; CallHit 0 3.0;
             CallUpdate 3.1 0.016] in
  In 1%nat (notes (runs cs new)) /\
  heap (runs cs new) !! 1%nat = Some (Note.new 1 3.0) /\
  In 1%nat (activeNotes (runs cs new)) /\
  activeNotes (runs cs new) = [1; 2]%nat.
Proof.
  cbv zeta.
  assert (Hin : In 1%nat (notes (runs [CallLoadChart specChart;
            CallUpdate 1.5 0.016; CallHit 0 3.0; CallUpdate 3.1 0.016] new)))
    by (vm_compute; auto).
  split; [exact Hin|]. split; [reflexivity|]. split; [|reflexivity].
  exact (X11_pending_notes_stay_active _ 1%nat (Note.new 1 3.0) Hin
           eq_refl eq_refl).
Defined.



End ManagerInvariants.

(** ** Presses: lanes and ties *)

Section HitMore.
Import NoteManager.

Lemma closestStep_other_lane (h h' : list Note.t) (track' : Z)
    (currentTime : Q) (acc : option nat * ext) (r : nat) :
  (h' !! r = h !! r \/
   exists n n', h !! r = Some n /\ h' !! r = Some n' /\
                Note.track n <> track' /\ Note.track n' <> track') ->
  closestStep h' track' currentTime acc r = closestStep h track' currentTime acc r.
Proof.
  intros [E|(n & n' & Hn & Hn' & Ht & Ht')]; unfold closestStep.
  - now rewrite E.
  - rewrite Hn, Hn'.
    destruct (Z.eqb_spec (Note.track n) track') as [|_]; [contradiction|].
    destruct (Z.eqb_spec (Note.track n') track') as [|_]; [contradiction|].
    reflexivity.
Qed.

Lemma fst_hit (track : Z) (currentTime : Q) (m : t) :
  fst (hit track currentTime m) =
  match closest track currentTime m with
  | Some ref =>
      match heap m !! ref with
      | Some note => fst (Note.judge currentTime note)
      | None => None
      end
  | None => None
  end.
Proof.
  unfold hit. destruct (closest track currentTime m) as [ref|]; [|reflexivity].
  destruct (heap m !! ref) as [note|]; [|reflexivity].
  destruct (Note.judge currentTime note) as [[j|] note']; reflexivity.
Qed.

(** X13: lanes are independent: a press on one lane never changes which
    note a press on another lane selects, nor the judgment that press
    returns. *)
Theorem X13_lanes_independent
    (track track' : Z) (currentTime currentTime' : Q) (m : t) :
  track <> track' ->
  closest track' currentTime' (snd (hit track currentTime m))
  = closest track' currentTime' m /\
  fst (hit track' currentTime' (snd (hit track currentTime m)))
  = fst (hit track' currentTime' m).
Proof.
  intros Hne.
  destruct (hit_effect track currentTime m)
    as [->|(r & note & j & _ & Hr & _ & Ht & _ & Hm)]; [now split|].
  assert (Hheap : heap (snd (hit track currentTime m))
                  = <[r := Note.hit j note]> (heap m))
    by (rewrite Hm, addJudgment_heap; reflexivity).
  assert (Hact : activeNotes (snd (hit track currentTime m)) = activeNotes m)
    by apply hit_arrays.
  assert (Hc : closest track' currentTime' (snd (hit track currentTime m))
               = closest track' currentTime' m).
  { unfold closest. rewrite Hact, Hheap. f_equal.
    generalize (@None nat, Infinity). generalize (activeNotes m). intros l.
    induction l as [|x l IH]; intros acc; simpl; [reflexivity|].
    rewrite (closestStep_other_lane (heap m)); [apply IH|].
    destruct (Nat.eq_dec r x) as [->|Hx].
    - right. exists note, (Note.hit j note). split; [exact Hr|].
      split; [apply list_lookup_insert_eq, (lookup_lt_Some _ _ _ Hr)|].
      simpl. split; congruence.
    - left. now apply list_lookup_insert_ne. }
  split; [exact Hc|]. rewrite !fst_hit, Hc.
  destruct (closest track' currentTime' m) as [ref|] eqn:Hcl; [|reflexivity].
  destruct (closest_Some _ _ _ _ Hcl) as (n & (_ & Hn & Htn & _) & _).
  rewrite Hheap, list_lookup_insert_ne; [reflexivity|].
  intros ->. rewrite Hr in Hn. injection Hn as <-. congruence.
Qed.

Lemma X13_lanes_independent_witness :
  (0 <> 1)%Z /\
  closest 1 3.02 (snd (hit 0 3.0 specManager)) = Some 1%nat /\
  fst (hit 1 3.02 (snd (hit 0 3.0 specManager))) = Some PERFECT.
Proof.
  assert (H : (0 <> 1)%Z) by discriminate.
  destruct (X13_lanes_independent 0 1 3.0 3.02 specManager H) as (H1 & H2).
  split; [exact H|]. split; [rewrite H1|rewrite H2]; reflexivity.
Defined.

(** The locals of the loop of [hit] after the references [l], with the
    position of the selected one. *)
Lemma closest_fold_first h track currentTime (l : list nat) :
  let acc := fold_left (closestStep h track currentTime) l (None, Infinity) in
  acc = (None, Infinity) \/
  exists i ref note,
    acc = (Some ref, Finite (dist currentTime note)) /\
    l !! i = Some ref /\ eligible h track currentTime ref note /\
    forall i' ref' note',
      (i' < i)%nat -> l !! i' = Some ref' ->
      eligible h track currentTime ref' note' ->
      dist currentTime note < dist currentTime note'.
Proof.
  induction l as [|x l IH] using rev_ind; [now left|].
  cbv zeta in *. rewrite fold_left_app. simpl.
  pose proof (closest_fold h track currentTime l) as Hmin. cbv zeta in Hmin.
  destruct (eligible_dec h track currentTime x) as [(nx & Hx)|Hx].
  - rewrite (closestStep_eligible _ _ _ _ _ _ Hx).
    destruct Hmin as [(E & Hno)|(r & n & E & Hin & Hel & Hle)]; rewrite E in *;
      simpl.
    + right. exists (length l), x, nx. split; [reflexivity|].
      split; [apply list_lookup_middle; reflexivity|]. split; [exact Hx|].
      intros i' ref' note' Hlt Hl' Hel'. rewrite lookup_app_l in Hl' by exact Hlt.
      destruct (Hno ref' note'); [|exact Hel'].
      apply list_elem_of_In, list_elem_of_lookup. now exists i'.
    + destruct (Qltb (dist currentTime nx) (dist currentTime n)) eqn:Hlt.
      * apply Qltb_lt in Hlt. right. exists (length l), x, nx.
        split; [reflexivity|].
        split; [apply list_lookup_middle; reflexivity|]. split; [exact Hx|].
        intros i' ref' note' Hi Hl' Hel'. rewrite lookup_app_l in Hl' by exact Hi.
        eapply Qlt_le_trans; [exact Hlt|]. apply (Hle ref' note'); [|exact Hel'].
        apply list_elem_of_In, list_elem_of_lookup. now exists i'.
      * destruct IH as [IH|(i & r0 & n0 & E0 & Hi & Hel0 & Hfirst)];
          [discriminate IH|].
        right. exists i, r0, n0. split; [exact E0|].
        apply lookup_lt_Some in Hi as Hilt.
        split; [rewrite lookup_app_l by exact Hilt; exact Hi|].
        split; [exact Hel0|].
        intros i' ref' note' Hlt' Hl' Hel'.
        rewrite lookup_app_l in Hl' by lia. now apply (Hfirst i' ref' note').
  - rewrite (closestStep_not_eligible _ _ _ _ _ Hx).
    destruct IH as [IH|(i & r0 & n0 & E0 & Hi & Hel0 & Hfirst)]; [now left|].
    right. exists i, r0, n0. split; [exact E0|].
    apply lookup_lt_Some in Hi as Hilt.
    split; [rewrite lookup_app_l by exact Hilt; exact Hi|].
    split; [exact Hel0|].
    intros i' ref' note' Hlt' Hl' Hel'.
    rewrite lookup_app_l in Hl' by lia. now apply (Hfirst i' ref' note').
Qed.

(** X14: when several candidates of a press are equally near, the one that
    comes first in [activeNotes] (the one spawned first) is selected: every
    candidate placed before the selected note is strictly farther from the
    press. *)
Theorem X14_ties_go_to_the_first
    (track : Z) (currentTime : Q) (m : t) (ref : nat) :
  closest track currentTime m = Some ref ->
  exists i note,
    activeNotes m !! i = Some ref /\
    heap m !! ref = Some note /\
    forall i' ref' note',
      (i' < i)%nat -> activeNotes m !! i' = Some ref' ->
      eligible (heap m) track currentTime ref' note' ->
      dist currentTime note < dist currentTime note'.
Proof.
  unfold closest. intros H.
  destruct (closest_fold_first (heap m) track currentTime (activeNotes m))
    as [E|(i & r & n & E & Hi & Hel & Hfirst)]; rewrite E in H; simpl in H;
    [discriminate|].
  injection H as <-. exists i, n. split; [exact Hi|].
  split; [apply Hel|exact Hfirst].
Qed.

Lemma X14_ties_go_to_the_first_witness :
  let m := spawnNotes 2.0 (loadChart [mkData 0 3.0; mkData 0 3.2] new) in
  closest 0 3.1 m = Some 0%nat /\
  dist 3.1 (Note.new 0 3.0) == dist 3.1 (Note.new 0 3.2) /\
  exists i note, activeNotes m !! i = Some 0%nat /\ heap m !! 0%nat = Some note.
Proof.
  cbv zeta.
  destruct (X14_ties_go_to_the_first 0 3.1
              (spawnNotes 2.0 (loadChart [mkData 0 3.0; mkData 0 3.2] new))
              0%nat eq_refl) as (i & note & Hi & Hn & _).
  split; [reflexivity|]. split; [reflexivity|]. exists i, note. now split.
Defined.

End HitMore.

(** ** Spawning twice, loading twice, resetting *)

Section ChartMore.
Import NoteManager.

Lemma due_later_nil (limit limit' : Q) (l : list NoteData) :
  limit' <= limit ->
  due limit' (drop (length (due limit l)) l) = [].
Proof.
  intros Hle. pose proof (due_stop limit l) as Hstop.
  destruct (l !! length (due limit l)) as [d|] eqn:Hd.
  - rewrite (drop_S _ _ _ Hd). simpl. unfold inWindow.
    assert (E : Qle_bool (time d) limit' = false) by (apply Qle_bool_gt; lra).
    now rewrite E.
  - apply lookup_ge_None in Hd. now rewrite drop_all_nil.
Qed.

(** X15: a second [spawnNotes] at the same or at an earlier time spawns
    nothing and changes nothing: a chart entry is spawned at most once,
    also when the clock is seeked backwards. *)
Theorem X15_spawnNotes_twice (currentTime currentTime' : Q) (m : t) :
  currentTime' <= currentTime ->
  spawnNotes currentTime' (spawnNotes currentTime m) = spawnNotes currentTime m.
Proof.
  intros Hle. rewrite (spawnNotes_spec currentTime' (spawnNotes currentTime m)).
  rewrite (spawnNotes_spec currentTime m). simpl.
  rewrite <- drop_drop, due_later_nil by (apply round64_mono; lra). simpl.
  now rewrite !app_nil_r, Nat.add_0_r.
Qed.

Lemma X15_spawnNotes_twice_witness :
  0.5 <= 1.01 /\
  spawnNotes 0.5 specManager = specManager /\
  length (heap (spawnNotes 0.5 specManager)) = 2%nat.
Proof.
  assert (H : 0.5 <= 1.01) by (vm_compute; discriminate).
  pose proof (X15_spawnNotes_twice 1.01 0.5 (loadChart specChart new) H) as E.
  split; [exact H|]. split; [exact E|]. unfold specManager in *. now rewrite E.
Defined.

Lemma sort_sorted_id (l : list NoteData) :
  StronglySorted byTime l -> sort (fun a b => time a - time b) l = l.
Proof.
  induction 1 as [|a l Hs IH Hall]; simpl; [reflexivity|].
  fold (sort (fun a b => time a - time b) l). rewrite IH.
  destruct Hall as [|b l Hb Hall]; simpl; [reflexivity|].
  assert (E : Qle_bool (time a - time b) 0 = true)
    by (apply Qle_bool_iff; unfold byTime in Hb; lra).
  now rewrite E.
Qed.

(** X16: [loadChart] stores a chart that is already in ascending order of
    time exactly as given, so loading the stored chart again changes
    nothing. *)
Theorem X16_loadChart_idempotent (input : list NoteData) (m : t) :
  loadChart (chart (loadChart input m)) (loadChart input m) = loadChart input m /\
  (StronglySorted byTime input -> chart (loadChart input m) = input).
Proof.
  split.
  - unfold loadChart at 1. simpl.
    rewrite sort_sorted_id by apply sort_sorted. reflexivity.
  - intros H. simpl. now apply sort_sorted_id.
Qed.

Lemma X16_loadChart_idempotent_witness :
  StronglySorted byTime specChart /\
  chart (loadChart specChart new) = specChart.
Proof.
  assert (H : StronglySorted byTime specChart).
  { repeat constructor; unfold byTime; simpl; discriminate. }
  split; [exact H|].
  exact (proj2 (X16_loadChart_idempotent specChart new) H).
Defined.

(** X17: [reset()] keeps the chart and the look-ahead, empties both arrays
    and zeroes the statistics, and restarts the consumption of the chart:
    the next [spawnNotes] spawns, as fresh notes, the entries from the
    beginning of the chart that are due, and the accuracy is 100 again. *)
Theorem X17_reset_replays_chart (currentTime : Q) (m : t) :
  let ds := due (round64 (currentTime + spawnTime m)) (chart m) in
  let m' := spawnNotes currentTime (reset m) in
  chart m' = chart m /\
  chartIndex m' = length ds /\
  activeNotes m' = seq (length (heap m)) (length ds) /\
  notes m' = activeNotes m' /\
  heap m' = heap m ++ List.map noteOf ds /\
  stats4 m' = (0%N, 0%N, 0%N, mkCounts 0 0 0 0) /\
  calculateAccuracy m' = JNumber 100.
Proof.
  cbv zeta. rewrite spawnNotes_spec. simpl. repeat split.
Qed.

End ChartMore.

(** ** Judgments and resolved notes *)

Section JudgmentCount.
Import NoteManager.

Lemma total_addJudgment (j : Judgment) (m : t) :
  total (addJudgment j m) = (total m + 1)%N.
Proof.
  assert (E : judgmentCounts (addJudgment j m) = incr j (judgmentCounts m)).
  { destruct j; unfold addJudgment; simpl; try reflexivity;
      destruct (N.ltb _ _); reflexivity. }
  rewrite !total_sum, E. destruct j; simpl; lia.
Qed.

Lemma total_same (m m' : t) :
  judgmentCounts m' = judgmentCounts m -> total m' = total m.
Proof. intros E. now rewrite !total_sum, E. Qed.

Lemma resolvedCount_app (h1 h2 : list Note.t) :
  resolvedCount (h1 ++ h2) = (resolvedCount h1 + resolvedCount h2)%nat.
Proof. unfold resolvedCount. now rewrite List.filter_app, length_app. Qed.

Lemma resolvedCount_spawned (ds : list NoteData) :
  resolvedCount (List.map noteOf ds) = 0%nat.
Proof. induction ds as [|d ds IH]; [reflexivity|exact IH]. Qed.

Lemma resolvedCount_alter_mono (f : Note.t -> Note.t) (i : nat) (h : list Note.t) :
  (forall n, evolves n (f n)) ->
  (resolvedCount h <= resolvedCount (alter f i h))%nat.
Proof.
  intros Hf. revert i. induction h as [|n h IH]; intros [|i]; simpl;
    try apply Nat.le_refl.
  - unfold resolvedCount. simpl.
    destruct (Note.pending n) eqn:Hp; simpl.
    + destruct (negb (Note.pending (f n))); simpl; clear; lia.
    + destruct (Hf n) as (_ & _ & H). rewrite (H Hp), Hp. simpl. clear. lia.
  - specialize (IH i). change (alter f (S i) (n :: h)) with (n :: alter f i h).
    unfold resolvedCount in *. cbn [List.filter].
    destruct (negb (Note.pending n)); cbn [length]; [apply le_n_S|]; exact IH.
Qed.

Lemma resolvedCount_forEach (f : Note.t -> Note.t) (refs : list nat)
    (h : list Note.t) :
  (forall n, evolves n (f n)) ->
  (resolvedCount h
   <= resolvedCount (fold_left (fun h r => alter f r h) refs h))%nat.
Proof.
  intros Hf. revert h. induction refs as [|x refs IH]; intros h; simpl;
    [apply Nat.le_refl|].
  eapply Nat.le_trans; [apply (resolvedCount_alter_mono f x h Hf)|apply IH].
Qed.

Lemma resolvedCount_insert (i : nat) (x y : Note.t) (h : list Note.t) :
  h !! i = Some y -> Note.pending y = true -> Note.pending x = false ->
  resolvedCount (<[i := x]> h) = S (resolvedCount h).
Proof.
  intros Hl Hy Hx. revert i Hl. induction h as [|n h IH]; intros [|i] Hl;
    try discriminate Hl.
  - injection Hl as ->. unfold resolvedCount. simpl. now rewrite Hx, Hy.
  - specialize (IH i Hl). change (<[S i := x]> (n :: h)) with (n :: <[i := x]> h).
    unfold resolvedCount in *. cbn [List.filter].
    destruct (negb (Note.pending n)); cbn [length]; [f_equal|]; exact IH.
Qed.

Lemma resolvedCount_alter (f : Note.t -> Note.t) (i : nat) (y : Note.t)
    (h : list Note.t) :
  h !! i = Some y -> Note.pending y = true -> Note.pending (f y) = false ->
  resolvedCount (alter f i h) = S (resolvedCount h).
Proof.
  intros Hl Hy Hx. revert i Hl. induction h as [|n h IH]; intros [|i] Hl;
    try discriminate Hl.
  - injection Hl as ->. unfold resolvedCount. simpl. now rewrite Hx, Hy.
  - specialize (IH i Hl). change (alter f (S i) (n :: h)) with (n :: alter f i h).
    unfold resolvedCount in *. cbn [List.filter].
    destruct (negb (Note.pending n)); cbn [length]; [f_equal|]; exact IH.
Qed.

Lemma judged_run (c : call) (m : t) :
  (total m <= N.of_nat (resolvedCount (heap m)))%N ->
  (total (run c m) <= N.of_nat (resolvedCount (heap (run c m))))%N.
Proof.
  intros H. destruct c as [chart|ct dt|ct|ct|track ct|]; simpl.
  - exact H.
  - rewrite (total_same m (update ct dt m)) by apply update_keeps_stats.
    rewrite update_spec. cbv zeta. cbn [heap set_activeNotes set_heap].
    pose proof (resolvedCount_forEach (Note.update ct dt)
                  (activeNotes (spawnNotes ct m)) (heap (spawnNotes ct m))
                  (evolves_update ct dt)) as Hmono.
    assert (E : resolvedCount (heap (spawnNotes ct m)) = resolvedCount (heap m)).
    { rewrite spawnNotes_spec. cbn [heap].
      rewrite resolvedCount_app, resolvedCount_spawned. apply Nat.add_0_r. }
    rewrite E in Hmono. eapply N.le_trans; [exact H|].
    clear - Hmono. lia.
  - rewrite (total_same m (spawnNotes ct m))
      by (rewrite spawnNotes_spec; reflexivity).
    rewrite spawnNotes_spec. cbn [heap].
    rewrite resolvedCount_app, resolvedCount_spawned, Nat.add_0_r. exact H.
  - apply (checkAutoMiss_invariant
             (fun m' => (total m' <= N.of_nat (resolvedCount (heap m')))%N));
      [|exact H].
    intros m0 r H0.
    destruct (autoMissStep_effect ct m0 r) as [->|(note & Hr & Hp & ->)];
      [exact H0|].
    rewrite total_addJudgment, addJudgment_heap. cbn [heap set_heap].
    rewrite (resolvedCount_alter Note.miss r note) by
      (try assumption; unfold Note.pending; simpl; apply andb_false_r).
    change (total (set_heap (alter Note.miss r (heap m0)) m0)) with (total m0).
    lia.
  - destruct (hit_effect track ct m)
      as [->|(r & note & j & _ & Hr & Hp & _ & _ & ->)]; [exact H|].
    rewrite total_addJudgment, addJudgment_heap. cbn [heap set_heap].
    rewrite (resolvedCount_insert r (Note.hit j note) note) by
      (try assumption; reflexivity).
    change (total (set_heap (<[r := Note.hit j note]> (heap m)) m))
      with (total m).
    lia.
  - unfold total. simpl. lia.
Qed.

(** X18: after any sequence of calls the number of recorded judgments
    (all four counts together) is at most the number of notes of the store
    that are hit or missed: no note is counted twice. *)
Theorem X18_judgments_at_most_resolved_notes (cs : list call) :
  let m := runs cs new in
  (nPERFECT (judgmentCounts m) + nGREAT (judgmentCounts m)
   + nGOOD (judgmentCounts m) + nMISS (judgmentCounts m)
   <= N.of_nat (resolvedCount (heap m)))%N.
Proof.
  cbv zeta. rewrite <- total_sum.
  apply (runs_invariant
           (fun m => (total m <= N.of_nat (resolvedCount (heap m)))%N));
    [apply judged_run|]. unfold total. simpl. lia.
Qed.

End JudgmentCount.

(** ** The input manager *)

Section InputFacts.
Import InputManager.

Lemma keyMap_range (code : string) (lane : Z) :
  keyMap code = Some lane -> (0 <= lane <= 3)%Z.
Proof.
  unfold keyMap.
  repeat (match goal with |- context [String.eqb ?a ?b] =>
            destruct (String.eqb a b) end; [intros [= <-]; lia|]).
  discriminate.
Qed.

Lemma activateTrack_in_range (lane : Z) (s : t) :
  (0 <= lane <= 3)%Z ->
  activateTrack lane s
  = (mk (<[Z.to_nat lane := true]> (trackStates s)) (activeKeys s), Some lane).
Proof.
  intros H. unfold activateTrack.
  destruct (Z.ltb_spec lane 0); [lia|]. destruct (Z.ltb_spec 3 lane); [lia|].
  reflexivity.
Qed.

Lemma deactivateTrack_in_range (lane : Z) (s : t) :
  (0 <= lane <= 3)%Z ->
  deactivateTrack lane s
  = mk (<[Z.to_nat lane := false]> (trackStates s)) (activeKeys s).
Proof.
  intros H. unfold deactivateTrack.
  destruct (Z.ltb_spec lane 0); [lia|]. destruct (Z.ltb_spec 3 lane); [lia|].
  reflexivity.
Qed.

(** X19: [handleKeyDown] ignores auto-repeat events and keys that are not
    in [keyMap]: the manager is unchanged and [onTrackHit] is not called.
    For a first press of a mapped key, [onTrackHit] is called once with the
    key's lane, which is one of 0..3; that lane becomes active, the other
    lanes keep their state, and the key is recorded in [activeKeys]. *)
Theorem X19_key_down (e : KeyboardEvent) (s : t) :
  length (trackStates s) = 4%nat ->
  match keyMap (code e) with
  | None => handleKeyDown e s = (s, None)
  | Some lane =>
      if repeat e then handleKeyDown e s = (s, None)
      else
        let s' := fst (handleKeyDown e s) in
        snd (handleKeyDown e s) = Some lane /\
        (0 <= lane <= 3)%Z /\
        isTrackActive (Z.to_nat lane) s' = Some true /\
        (forall i, i <> Z.to_nat lane -> isTrackActive i s' = isTrackActive i s) /\
        In (code e) (activeKeys s') /\
        length (trackStates s') = 4%nat
  end.
Proof.
  intros Hlen. unfold handleKeyDown.
  destruct (keyMap (code e)) as [lane|] eqn:Hk;
    [|destruct (repeat e); reflexivity].
  destruct (repeat e); [reflexivity|].
  pose proof (keyMap_range _ _ Hk) as Hr.
  rewrite (activateTrack_in_range lane s Hr). cbv zeta. simpl.
  unfold isTrackActive. simpl.
  split; [reflexivity|]. split; [exact Hr|].
  split; [apply list_lookup_insert_eq; lia|].
  split; [intros i Hi; now apply list_lookup_insert_ne|].
  split; [|now rewrite length_insert].
  unfold Set_add. destruct (existsb (String.eqb (code e)) (activeKeys s)) eqn:Hex.
  - apply existsb_exists in Hex as (y & Hy & Heq).
    apply String.eqb_eq in Heq. now subst y.
  - apply in_or_app. right. now left.
Qed.

Lemma X19_key_down_witness :
  length (trackStates new) = 4%nat /\
  handleKeyDown (mkEvent "KeyC" false) new
  = (mk [false; true; false; false] ["KeyC"%string], Some 1%Z) /\
  handleKeyDown (mkEvent "KeyC" true) new = (new, None) /\
  handleKeyDown (mkEvent "KeyQ" false) new = (new, None).
Proof.
  pose proof (X19_key_down (mkEvent "KeyC" true) new eq_refl) as H1.
  pose proof (X19_key_down (mkEvent "KeyQ" false) new eq_refl) as H2.
  split; [reflexivity|]. split; [reflexivity|]. split; [exact H1|exact H2].
Defined.

Lemma filter_all {A : Type} (f : A -> bool) (l : list A) :
  (forall x, In x l -> f x = true) -> List.filter f l = l.
Proof.
  induction l as [|a l IH]; intros H; simpl; [reflexivity|].
  rewrite (H a) by now left. f_equal. apply IH. intros x Hx. apply H. now right.
Qed.

(** X20: pressing and then releasing a mapped key whose lane was inactive
    and which was not recorded as held brings the manager back to the state
    it had before the press. *)
Theorem X20_key_down_then_up
    (e : KeyboardEvent) (s : t) (lane : Z) :
  keyMap (code e) = Some lane ->
  repeat e = false ->
  isTrackActive (Z.to_nat lane) s = Some false ->
  ~ In (code e) (activeKeys s) ->
  handleKeyUp e (fst (handleKeyDown e s)) = s.
Proof.
  intros Hk Hrep Hoff Hnew. pose proof (keyMap_range _ _ Hk) as Hr.
  unfold handleKeyDown, handleKeyUp. rewrite Hrep, Hk.
  rewrite (activateTrack_in_range lane s Hr). simpl.
  rewrite deactivateTrack_in_range by exact Hr. simpl.
  unfold isTrackActive in Hoff.
  rewrite list_insert_insert_eq, (list_insert_id _ _ _ Hoff).
  assert (Hex : existsb (String.eqb (code e)) (activeKeys s) = false).
  { destruct (existsb _ _) eqn:Hex; [|reflexivity].
    apply existsb_exists in Hex as (y & Hy & Heq).
    apply String.eqb_eq in Heq. now subst y. }
  unfold Set_add, Set_delete. rewrite Hex, List.filter_app. simpl.
  rewrite String.eqb_refl. simpl. rewrite app_nil_r, filter_all.
  - now destruct s.
  - intros y Hy. apply negb_true_iff, String.eqb_neq. intros <-. auto.
Qed.

Lemma X20_key_down_then_up_witness :
  keyMap "ArrowLeft" = Some 2%Z /\
  handleKeyUp (mkEvent "ArrowLeft" false)
              (fst (handleKeyDown (mkEvent "ArrowLeft" false) new)) = new.
Proof.
  split; [reflexivity|].
  apply (X20_key_down_then_up (mkEvent "ArrowLeft" false) new 2);
    [reflexivity|reflexivity|reflexivity|intros []].
Defined.

Lemma StronglySorted_snoc {A : Type} (R : A -> A -> Prop) (l : list A) (a : A) :
  StronglySorted R l -> (forall y, In y l -> R y a) -> StronglySorted R (l ++ [a]).
Proof.
  induction 1 as [|x l Hs IH Hall]; intros Ha; simpl.
  - repeat constructor.
  - constructor; [apply IH; intros y Hy; apply Ha; now right|].
    apply Forall_app. split; [exact Hall|]. constructor; [|constructor].
    apply Ha. now left.
Qed.

Lemma activeTracks_spec (l : list bool) :
  let r := List.filter (fun index => negb (index =? -1)%Z)
             (imap (fun index (state : bool) =>
                      if state then Z.of_nat index else (-1)%Z) l) in
  (forall z, In z r <-> exists i, z = Z.of_nat i /\ l !! i = Some true) /\
  StronglySorted Z.lt r.
Proof.
  induction l as [|x l IH] using rev_ind; cbv zeta in *.
  - split; [|constructor]. intros z. split; [intros []|].
    intros (i & _ & H). discriminate H.
  - destruct IH as (IHin & IHs).
    rewrite imap_app, List.filter_app. simpl. rewrite Nat.add_0_r.
    assert (Htail : (if negb ((if x then Z.of_nat (length l) else (-1)%Z) =? -1)%Z
                     then [if x then Z.of_nat (length l) else (-1)%Z] else [])
                    = if x then [Z.of_nat (length l)] else []).
    { destruct x; [|reflexivity].
      destruct (Z.eqb_spec (Z.of_nat (length l)) (-1)); [lia|reflexivity]. }
    rewrite Htail. clear Htail. split.
    + intros z. rewrite in_app_iff, IHin. split.
      * intros [(i & -> & Hi)|Hz].
        -- exists i. split; [reflexivity|]. now apply lookup_app_l_Some.
        -- destruct x; [|destruct Hz]. destruct Hz as [<-|[]].
           exists (length l). split; [reflexivity|].
           now rewrite list_lookup_middle.
      * intros (i & -> & Hi).
        destruct (Nat.lt_ge_cases i (length l)) as [Hlt|Hge].
        -- left. exists i. split; [reflexivity|].
           now rewrite lookup_app_l in Hi.
        -- right. rewrite lookup_app_r in Hi by exact Hge.
           destruct (i - length l)%nat as [|k] eqn:Hk; simpl in Hi;
             [|discriminate].
           injection Hi as ->. left. f_equal. lia.
    + destruct x; [|now rewrite app_nil_r].
      apply StronglySorted_snoc; [exact IHs|].
      intros y Hy. apply IHin in Hy as (i & -> & Hi).
      apply lookup_lt_Some in Hi. lia.
Qed.

(** X21: [getActiveTracks()] returns exactly the indices of the lanes whose
    state is [true], each once, in ascending order. *)
Theorem X21_active_tracks (s : t) :
  (forall i : nat,
      In (Z.of_nat i) (getActiveTracks s) <-> isTrackActive i s = Some true) /\
  (forall z, In z (getActiveTracks s) -> (0 <= z < Z.of_nat (length (trackStates s)))%Z) /\
  StronglySorted Z.lt (getActiveTracks s).
Proof.
  destruct (activeTracks_spec (trackStates s)) as (Hin & Hs).
  unfold getActiveTracks, isTrackActive. split; [|split; [|exact Hs]].
  - intros i. rewrite Hin. split.
    + intros (j & Hj & Hl). apply Nat2Z.inj in Hj. now subst j.
    + intros H. now exists i.
  - intros z Hz. apply Hin in Hz as (i & -> & Hi).
    apply lookup_lt_Some in Hi. lia.
Qed.

End InputFacts.


(** ** The generated test chart *)

Section TestChart.
Import NoteManager.

(** The [for] loop of [generateTestChart] leaves by its test: more rounds
    would not add a value. *)
Lemma testChartTimes_exit :
  forTimes 32 3.0 (3.0 + 30) 1.0 = testChartTimes /\ length testChartTimes = 30%nat.
Proof. split; reflexivity. Qed.

Lemma testChartTimes_sorted : StronglySorted Qlt testChartTimes.
Proof.
  assert (H : Sorted Qlt testChartTimes)
    by (unfold testChartTimes; repeat constructor).
  apply Sorted_StronglySorted in H; [exact H|].
  intros x y z. apply Qlt_trans.
Qed.

Lemma testChartTimes_range :
  Forall (fun time => 3 <= time /\ time <= 32) testChartTimes.
Proof.
  apply List.Forall_forall. intros time Hin.
  assert (Hb : forallb (fun time => Qle_bool 3 time && Qle_bool time 32)
                       testChartTimes = true) by reflexivity.
  rewrite forallb_forall in Hb. specialize (Hb time Hin).
  apply andb_true_iff in Hb as (H1 & H2).
  split; now apply Qle_bool_iff.
Qed.

Lemma randomTrack_range (r : Q) :
  0 <= r -> r < 1 -> (0 <= randomTrack r <= 3)%Z.
Proof.
  intros H0 H1. unfold randomTrack. split.
  - change 0%Z with (Qfloor 0). apply Qfloor_resp_le. lra.
  - pose proof (Qfloor_le (r * 4)) as Hle.
    assert (Hlt : inject_Z (Qfloor (r * 4)) < inject_Z 4)
      by (change (inject_Z 4) with 4; lra).
    rewrite <- Zlt_Qlt in Hlt. lia.
Qed.

Lemma drawOtherTrack_spec (track : Z) (rs : list Q) (track2 : Z) (rs' : list Q) :
  drawOtherTrack track rs = Some (track2, rs') ->
  track2 <> track /\
  (exists r, In r rs /\ track2 = randomTrack r) /\
  (forall r, In r rs' -> In r rs).
Proof.
  induction rs as [|r rs IH]; simpl; [discriminate|].
  destruct (Z.eqb_spec (randomTrack r) track) as [E|E].
  - intros H. destruct (IH H) as (H1 & (r0 & Hr0 & H2) & H3).
    split; [exact H1|]. split; [exists r0; auto|]. auto.
  - intros [= <- <-]. split; [exact E|]. split; [exists r; auto|]. auto.
Qed.

Lemma testChartBody_spec (time : Q) (acc : list NoteData) (rs : list Q)
    (acc' : list NoteData) (rs' : list Q) :
  testChartBody time acc rs = Some (acc', rs') ->
  exists g, acc' = acc ++ g /\ roundNotes time rs g /\
            (forall r, In r rs' -> In r rs).
Proof.
  unfold testChartBody. destruct rs as [|r1 [|r2 rs0]]; try discriminate.
  destruct (Qltb 0.7 r2).
  - destruct (drawOtherTrack (randomTrack r1) rs0) as [[track2 rs2]|] eqn:Hd;
      [|discriminate].
    intros [= <- <-].
    destruct (drawOtherTrack_spec _ _ _ _ Hd) as (Hne & (r & Hr & ->) & Hsub).
    exists [mkData (randomTrack r1) time; mkData (randomTrack r) time].
    split; [now rewrite <- app_assoc|]. split.
    + right. exists r1, r. repeat split; simpl; auto.
    + intros x Hx. simpl. auto.
  - intros [= <- <-]. exists [mkData (randomTrack r1) time].
    split; [reflexivity|]. split.
    + left. exists r1. simpl. auto.
    + intros x Hx. simpl. auto.
Qed.

Lemma StronglySorted_app_intro {A : Type} (R : A -> A -> Prop) (l1 l2 : list A) :
  StronglySorted R l1 -> StronglySorted R l2 ->
  (forall x y, In x l1 -> In y l2 -> R x y) ->
  StronglySorted R (l1 ++ l2).
Proof.
  induction 1 as [|a l1 Hs IH Hall]; intros H2 Hx; simpl; [exact H2|].
  constructor.
  - apply IH; [exact H2|]. intros x y Hin. apply Hx. now right.
  - apply Forall_app. split; [exact Hall|].
    apply List.Forall_forall. intros y Hy. apply Hx; [now left|exact Hy].
Qed.

Lemma roundNotes_sorted (time : Q) (rs : list Q) (g : list NoteData) :
  roundNotes time rs g ->
  StronglySorted laterOrBeside g /\
  (1 <= length g <= 2)%nat /\
  forall d, In d g ->
    time = NoteManager.time d /\ exists r, In r rs /\ track d = randomTrack r.
Proof.
  intros [(r1 & H1 & ->)|(r1 & r2 & H1 & H2 & Hne & ->)].
  - split; [repeat constructor|]. split; [simpl; lia|].
    intros d [<-|[]]. split; [reflexivity|]. now exists r1.
  - split.
    { apply SSorted_cons; [repeat constructor|].
      constructor; [right; simpl; now split|constructor]. }
    split; [simpl; lia|].
    intros d [<-|[<-|[]]]; (split; [reflexivity|]); [now exists r1|now exists r2].
Qed.

(** What the loop keeps true of the chart it builds. *)
Lemma testChartLoop_spec (times : list Q) :
  StronglySorted Qlt times ->
  forall (acc : list NoteData) (rs : list Q) (acc' : list NoteData) (rs' : list Q),
    StronglySorted laterOrBeside acc ->
    (forall d t, In d acc -> In t times -> time d < t) ->
    testChartLoop times acc rs = Some (acc', rs') ->
    StronglySorted laterOrBeside acc' /\
    (length acc + length times <= length acc'
     <= length acc + 2 * length times)%nat /\
    (forall d, In d acc' ->
       In d acc \/
       (In (time d) times /\ exists r, In r rs /\ track d = randomTrack r)).
Proof.
  induction 1 as [|t times Hs IH Hall]; intros acc rs acc' rs' Hacc Hlow; simpl.
  - intros [= <- <-]. split; [exact Hacc|]. split; [lia|]. auto.
  - destruct (testChartBody t acc rs) as [[acc1 rs1]|] eqn:Hb; [|discriminate].
    destruct (testChartBody_spec _ _ _ _ _ Hb) as (g & -> & Hg & Hsub).
    destruct (roundNotes_sorted _ _ _ Hg) as (Hgs & Hglen & Hgin).
    rewrite List.Forall_forall in Hall.
    intros Hloop. apply IH in Hloop as (H1 & H2 & H3).
    + split; [exact H1|]. rewrite length_app in H2. split; [lia|].
      intros d Hd. destruct (H3 d Hd) as [Hin|(Hin & r & Hr & Ht)].
      * apply in_app_or in Hin as [Hin|Hin]; [now left|]. right.
        destruct (Hgin d Hin) as (Et & r & Hr & Ht).
        split; [left; exact Et|]. now exists r.
      * right. split; [now right|]. exists r. auto.
    + apply StronglySorted_app_intro; [exact Hacc|exact Hgs|].
      intros x y Hx Hy. left. destruct (Hgin y Hy) as (<- & _).
      apply Hlow; [exact Hx|now left].
    + intros d t' Hd Ht'. apply in_app_or in Hd as [Hd|Hd].
      * apply Hlow; [exact Hd|now right].
      * destruct (Hgin d Hd) as (<- & _). now apply Hall.
Qed.

Lemma laterOrBeside_byTime (l : list NoteData) :
  StronglySorted laterOrBeside l -> StronglySorted byTime l.
Proof.
  induction 1 as [|a l Hs IH Hall]; constructor; [exact IH|].
  eapply Forall_impl; [exact Hall|]. intros b [H|(H & _)]; unfold byTime.
  - now apply Qlt_le_weak.
  - rewrite H. apply Qle_refl.
Qed.

Lemma drawOtherTrack_draws (track : Z) (rs : list Q) (track2 : Z)
    (rs' : list Q) :
  drawOtherTrack track rs = Some (track2, rs') ->
  exists again r3,
    rs = again ++ r3 :: rs' /\
    Forall (fun r => randomTrack r = track) again /\
    track2 = randomTrack r3 /\ track2 <> track.
Proof.
  induction rs as [|r rs IH]; simpl; [discriminate|].
  destruct (Z.eqb_spec (randomTrack r) track) as [E|E].
  - intros H. destruct (IH H) as (again & r3 & -> & Ha & H2 & H3).
    exists (r :: again), r3. split; [reflexivity|].
    split; [constructor; assumption|]. split; assumption.
  - intros [= <- <-]. exists [], r. split; [reflexivity|].
    split; [constructor|]. split; [reflexivity|exact E].
Qed.

(** The loop appends to the chart what the rounds push, in their order. *)
Lemma testChartLoop_generated (times : list Q) :
  forall (acc : list NoteData) (rs : list Q) (acc' : list NoteData)
         (rs' : list Q),
    testChartLoop times acc rs = Some (acc', rs') ->
    exists g, acc' = acc ++ g /\ generated times rs g.
Proof.
  induction times as [|t times IH]; intros acc rs acc' rs'; simpl.
  - intros [= <- <-]. exists []. split; [now rewrite app_nil_r|constructor].
  - unfold testChartBody. destruct rs as [|r1 [|r2 rs0]]; try discriminate.
    destruct (Qltb 0.7 r2) eqn:Hr2.
    + destruct (drawOtherTrack (randomTrack r1) rs0) as [[track2 rs2]|] eqn:Hd;
        [|discriminate].
      destruct (drawOtherTrack_draws _ _ _ _ Hd)
        as (again & r3 & -> & Ha & -> & Hne).
      intros Hl. destruct (IH _ _ _ _ Hl) as (g & -> & Hg).
      exists (mkData (randomTrack r1) t :: mkData (randomTrack r3) t :: g).
      split; [now rewrite <- !app_assoc|].
      apply generated_double; [now apply Qltb_lt|exact Ha|exact Hne|exact Hg].
    + intros Hl. destruct (IH _ _ _ _ Hl) as (g & -> & Hg).
      exists (mkData (randomTrack r1) t :: g).
      split; [now rewrite <- app_assoc|].
      apply generated_single; [now apply Qltb_ge|exact Hg].
Qed.

(** The loop variable takes the values 3, 4, ..., 32. *)
Lemma testChartTimes_values :
  Forall2 Qeq testChartTimes
          (List.map (fun k => inject_Z (Z.of_nat k)) (seq 3 30)).
Proof. repeat (constructor; [reflexivity|]). constructor. Qed.

(** X22: whenever [generateTestChart()] returns, the chart it has loaded
    is the generated one in generation order: one round for each of the
    times 3, 4, ..., 32, each round one note on the lane of its first draw
    or, when its second draw is above 0.7, two notes, the second on the
    first other lane drawn and after the first.  The chart is ascending in
    time; it has between 30 and 60 entries, with times between 3 and 32; of
    two entries at the same time the later one is on another lane; and when
    every draw of [Math.random()] is in [0, 1) every lane is one of 0..3. *)
Theorem X22_generated_test_chart (rs : list Q) (m m' : t) :
  generateTestChart rs m = Some m' ->
  chartIndex m' = 0%nat /\
  generated testChartTimes rs (chart m') /\
  Forall2 Qeq testChartTimes
          (List.map (fun k => inject_Z (Z.of_nat k)) (seq 3 30)) /\
  StronglySorted byTime (chart m') /\
  StronglySorted laterOrBeside (chart m') /\
  (30 <= length (chart m') <= 60)%nat /\
  (forall d, In d (chart m') -> 3 <= time d /\ time d <= 32) /\
  (Forall (fun r => 0 <= r /\ r < 1) rs ->
   forall d, In d (chart m') -> (0 <= track d <= 3)%Z).
Proof.
  unfold generateTestChart.
  destruct (testChartLoop testChartTimes [] rs) as [[testChart rs']|] eqn:Hl;
    [|discriminate].
  intros [= <-].
  destruct (testChartLoop_generated _ _ _ _ _ Hl) as (g & Eg & Hg).
  cbn [app] in Eg. subst g.
  apply (testChartLoop_spec _ testChartTimes_sorted) in Hl as (H1 & H2 & H3);
    [|constructor|intros d t' []].
  assert (E : chart (loadChart testChart m) = testChart)
    by (apply sort_sorted_id, laterOrBeside_byTime, H1).
  rewrite E. split; [reflexivity|]. split; [exact Hg|].
  split; [exact testChartTimes_values|].
  split; [now apply laterOrBeside_byTime|]. split; [exact H1|].
  split; [cbn [length] in H2; rewrite (proj2 testChartTimes_exit) in H2; lia|].
  split.
  - intros d Hd. destruct (H3 d Hd) as [[]|(Hin & _)].
    pose proof testChartTimes_range as Hr. rewrite List.Forall_forall in Hr.
    now apply Hr.
  - intros Hrs d Hd. destruct (H3 d Hd) as [[]|(_ & r & Hr & ->)].
    rewrite List.Forall_forall in Hrs. destruct (Hrs r Hr).
    now apply randomTrack_range.
Qed.

Lemma X22_generated_test_chart_witness :
  let rs := concat (repeat [0.1; 0.8; 0.1; 0.6] 30) in
  exists m',
    generateTestChart rs new = Some m' /\
    length (chart m') = 60%nat /\
    List.map track (firstn 2 (chart m')) = [0; 2]%Z /\
    generated testChartTimes rs (chart m') /\
    StronglySorted byTime (chart m').
Proof.
  cbv zeta.
  destruct (generateTestChart (concat (repeat [0.1; 0.8; 0.1; 0.6] 30)) new)
    as [m'|] eqn:E; [|vm_compute in E; discriminate E].
  exists m'. split; [reflexivity|].
  destruct (X22_generated_test_chart _ new m' E) as (_ & Hg & _ & Hs & _).
  assert (E' := E). vm_compute in E'. injection E' as <-.
  split; [reflexivity|]. split; [reflexivity|].
  split; [exact Hg|exact Hs].
Defined.

End TestChart.

(** ** The game: resuming and key presses *)

Section GameFacts.
Import Game.

Lemma update_fields (timestamp : Q) (g : t) :
  conductor (update timestamp false g)
  = Conductor.update timestamp (conductor g) /\
  isRunning (update timestamp false g) = isRunning g /\
  deltaTime (update timestamp false g) = deltaTime g /\
  lastFrameTime (update timestamp false g) = lastFrameTime g.
Proof. repeat split; reflexivity. Qed.








End GameFacts.
